(** * MultiArray: a fixed-dimensionality array over a flat backing store

    Shallow embedding of the three variants of the [MultiArray] class
    template:
    - [Plain]   : multiarr.h (pluggable container, fill through element
                  addresses [&d_data[i]]);
    - [Counted] : the variant with the public debug field [counter];
    - [Iter]    : the [std::vector] variant whose range assignment fills
                  through iterators [d_data.begin() + offset].

    Conventions of the embedding:
    - [std::size_t] is a 64-bit unsigned integer: a [Z] in [0, 2^64), every
      arithmetic operation reduced with [to_size_t];
    - a container is a [list]; a position of it is a [Z];
    - an operation that the C++ abstract machine leaves undefined (a read of
      [d_dimensions] outside the array, a write outside the backing store)
      yields [None]; there is no other failure: the source has no [throw];
    - the template parameter [D] is the length of [d_dimensions]. *)

From Stdlib Require Import ZArith List Lia Bool.
Import ListNotations.
Local Open Scope Z_scope.

Notation "x <- c ;; k" :=
  (match c with Some x => k | None => None end)
  (at level 61, c at next level, right associativity).

(** ** Machine integers, loops and the library algorithm *)

Module Common.

Definition size_bits : Z := 64.
Definition SIZE_MOD : Z := 2 ^ size_bits.

(** [static_cast<std::size_t>(x)], and the result of any [size_t]
    operation whose mathematical value is [x]. *)
Definition to_size_t (x : Z) : Z := x mod SIZE_MOD.

Definition is_size_t (x : Z) : Prop := 0 <= x < SIZE_MOD.

(** The values taken by [i] in [for (size_t i = b; i != e; ++i)]: the
    loop leaves after [e - b] increments, computed in [size_t]. *)
Definition loop_values (b e : Z) : list Z :=
  map (fun j => to_size_t (b + Z.of_nat j))
      (seq 0 (Z.to_nat (to_size_t (e - b)))).

(** Running a loop body over the values of the loop variable; the state
    [S] is the object the body mutates. *)
Fixpoint for_each {S : Type} (body : Z -> S -> option S)
         (vals : list Z) (s : S) : option S :=
  match vals with
  | [] => Some s
  | i :: rest => s' <- body i s ;; for_each body rest s'
  end.

Section Elements.
Context {T : Type}.

(** [std::fill(first, last, val)] over positions of [data]:
    [for (; first != last; ++first) *first = val;].  Equal positions
    write nothing; otherwise every position from [first] on is written
    until [last] is met, which stays inside the container only when
    [0 <= first < last <= size]. *)
Definition fill (data : list T) (first last : Z) (val : T)
  : option (list T) :=
  if first =? last then Some data
  else if (0 <=? first) && (first <? last)
          && (last <=? Z.of_nat (length data))
       then Some (firstn (Z.to_nat first) data
                    ++ repeat val (Z.to_nat (last - first))
                    ++ skipn (Z.to_nat last) data)
       else None.

(** [d_data[i] = val] through the reference returned by [operator[]]. *)
Definition store (data : list T) (i : Z) (val : T) : option (list T) :=
  if (0 <=? i) && (i <? Z.of_nat (length data))
  then Some (firstn (Z.to_nat i) data ++ val :: skipn (S (Z.to_nat i)) data)
  else None.

(** [d_data[i]] read. *)
Definition load (data : list T) (i : Z) : option T :=
  if 0 <=? i then nth_error data (Z.to_nat i) else None.
End Elements.

(** [product(head, tail...)]:
    [head * (sizeof...(Tail) == 0 ? 1 : product(tail...))]; every
    argument is converted to [size_t] when it is bound to [head]. *)
Fixpoint product (head : Z) (tail : list Z) : Z :=
  to_size_t (to_size_t head
             * match tail with
               | [] => 1
               | h :: t => product h t
               end).

(** The loop of [indexMap]:
    [fac = 1; for (idx = D - count; idx != D; ++idx) fac *= d_dimensions[idx];]
    With [count > D] the start index wraps below zero and the first read
    of [d_dimensions] is outside the array. *)
Definition axis_factor (d_dimensions : list Z) (count : nat) : option Z :=
  let D := length d_dimensions in
  if (count <=? D)%nat
  then Some (fold_left (fun fac idx => to_size_t (fac * nth idx d_dimensions 0))
                       (seq (D - count) count) 1)
  else None.

(** [indexMap(head, tail...)]:
    [head * fac + ((count == 0) ? 0 : indexMap(tail...))]. *)
Fixpoint indexMap (d_dimensions : list Z) (head : Z) (tail : list Z)
  : option Z :=
  fac <- axis_factor d_dimensions (length tail) ;;
  rest <- match tail with
          | [] => Some 0
          | h :: t => indexMap d_dimensions h t
          end ;;
  Some (to_size_t (head * fac + rest)).

(** A call [indexMap(args...)] with the pack [args]; the overload without
    arguments is declared and never defined. *)
Definition indexMap_pack (d_dimensions : list Z) (args : list Z) : option Z :=
  match args with
  | [] => None
  | head :: tail => indexMap d_dimensions head tail
  end.

(** The primary template [Assign<Level>]: a loop over
    [ranges[Level][0] .. ranges[Level][1]] that appends the loop variable
    to the pack [indices] and enters [Assign<Level + 1>].  [n] counts the
    levels left before the specialisation for the last level, whose body
    is [last]. *)
Fixpoint Assign_levels {S : Type} (last : list Z -> S -> option S)
         (ranges : list (Z * Z)) (n : nat) (Level : nat)
         (indices : list Z) (self : S) : option S :=
  match n with
  | O => last indices self
  | Datatypes.S n' =>
      let r := nth Level ranges (0, 0) in
      for_each (fun i s =>
                  Assign_levels last ranges n' (Level + 1) (indices ++ [i]) s)
               (loop_values (fst r) (snd r)) self
  end.

End Common.

Import Common.

(** ** multiarr.h *)

Module Plain.
Section Class.
Context {T : Type}.

Record MultiArray : Type := mkMultiArray {
  d_data : list T;
  d_dimensions : list Z
}.

(** The constructor: [d_data(product(args...))] holds that many
    value-initialised elements, [d_dimensions] the converted arguments.
    The arity [D] is the number of arguments ([static_assert]), at
    least one.  Allocation is taken to succeed. *)
Definition MultiArray_ctor (default : T) (head : Z) (tail : list Z)
  : MultiArray :=
  {| d_data := repeat default (Z.to_nat (product head tail));
     d_dimensions := map to_size_t (head :: tail) |}.

Definition dim (self : MultiArray) : Z :=
  Z.of_nat (length (d_dimensions self)).

Definition size (self : MultiArray) (dim : Z) : option Z :=
  load (d_dimensions self) (to_size_t dim).

Definition index (self : MultiArray) (args : list Z) : option Z :=
  indexMap_pack (d_dimensions self) (map to_size_t args).

(** [operator()(args...) const]: the element read. *)
Definition call (self : MultiArray) (args : list Z) : option T :=
  i <- index self args ;; load (d_data self) i.

(** [self(args...) = val]: a write through the reference that
    [operator()] returns. *)
Definition call_assign (self : MultiArray) (args : list Z) (val : T)
  : option MultiArray :=
  i <- index self args ;;
  data <- store (d_data self) i val ;;
  Some {| d_data := data; d_dimensions := d_dimensions self |}.

(** [assign(val)]: [std::fill(d_data.begin(), d_data.end(), val)]. *)
Definition assign_all (self : MultiArray) (val : T) : MultiArray :=
  {| d_data := map (fun _ => val) (d_data self);
     d_dimensions := d_dimensions self |}.

(** The specialisation [Assign<D - 1>]. *)
Definition Assign_last (ranges : list (Z * Z)) (val : T)
           (indices : list Z) (self : MultiArray) : option MultiArray :=
  let D := length (d_dimensions self) in
  let r := nth (D - 1) ranges (0, 0) in
  begin <- indexMap_pack (d_dimensions self) (indices ++ [fst r]) ;;
  let end_ := to_size_t (begin + to_size_t (snd r - fst r)) in
  data <- fill (d_data self) begin end_ val ;;
  Some {| d_data := data; d_dimensions := d_dimensions self |}.

(** [assign(ranges, val)]: [Assign<0>::assign(self, ranges, val)]. *)
Definition assign (self : MultiArray) (ranges : list (Z * Z)) (val : T)
  : option MultiArray :=
  let D := length (d_dimensions self) in
  Assign_levels (Assign_last ranges val) ranges (D - 1) 0 [] self.
End Class.
Arguments MultiArray : clear implicits.
End Plain.

(** ** The variant with the debug counter *)

Module Counted.
Section Class.
Context {T : Type}.

Record MultiArray : Type := mkMultiArray {
  d_data : list T;
  d_dimensions : list Z;
  counter : Z
}.

Definition MultiArray_ctor (default : T) (head : Z) (tail : list Z)
  : MultiArray :=
  {| d_data := repeat default (Z.to_nat (product head tail));
     d_dimensions := map to_size_t (head :: tail);
     counter := 0 |}.

Definition index (self : MultiArray) (args : list Z) : option Z :=
  indexMap_pack (d_dimensions self) (map to_size_t args).

Definition call (self : MultiArray) (args : list Z) : option T :=
  i <- index self args ;; load (d_data self) i.

Definition call_assign (self : MultiArray) (args : list Z) (val : T)
  : option MultiArray :=
  i <- index self args ;;
  data <- store (d_data self) i val ;;
  Some {| d_data := data; d_dimensions := d_dimensions self;
          counter := counter self |}.

Definition assign_all (self : MultiArray) (val : T) : MultiArray :=
  {| d_data := map (fun _ => val) (d_data self);
     d_dimensions := d_dimensions self;
     counter := counter self |}.

(** The specialisation [Assign<D - 1>]:
    [self.counter += (ranges[D - 1][1] - ranges[D - 1][0]);] comes first. *)
Definition Assign_last (ranges : list (Z * Z)) (val : T)
           (indices : list Z) (self : MultiArray) : option MultiArray :=
  let D := length (d_dimensions self) in
  let r := nth (D - 1) ranges (0, 0) in
  let counter' := to_size_t (counter self + to_size_t (snd r - fst r)) in
  begin <- indexMap_pack (d_dimensions self) (indices ++ [fst r]) ;;
  let end_ := to_size_t (begin + to_size_t (snd r - fst r)) in
  data <- fill (d_data self) begin end_ val ;;
  Some {| d_data := data; d_dimensions := d_dimensions self;
          counter := counter' |}.

Definition assign (self : MultiArray) (ranges : list (Z * Z)) (val : T)
  : option MultiArray :=
  let D := length (d_dimensions self) in
  Assign_levels (Assign_last ranges val) ranges (D - 1) 0 [] self.
End Class.
Arguments MultiArray : clear implicits.
End Counted.

(** ** The iterator variant *)

Module Iter.
Section Class.
Context {T : Type}.

Record MultiArray : Type := mkMultiArray {
  d_data : list T;
  d_dimensions : list Z
}.

(** The specialisation [Assign<MaxLevel, MaxLevel>], entered with
    [MaxLevel = D - 1].  An iterator is its distance from
    [d_data.begin()]; iterator addition is not reduced modulo [2^64]. *)
Definition Assign_last (ranges : list (Z * Z)) (val : T)
           (indices : list Z) (self : MultiArray) : option MultiArray :=
  let D := length (d_dimensions self) in
  let r := nth (D - 1) ranges (0, 0) in
  offset <- indexMap_pack (d_dimensions self) (indices ++ [fst r]) ;;
  let begin := 0 + offset in
  let end_ := begin + to_size_t (snd r - fst r) in
  data <- fill (d_data self) begin end_ val ;;
  Some {| d_data := data; d_dimensions := d_dimensions self |}.

(** [assign(ranges, val)]: [Assign<0, D - 1>::assign(self, ranges, val)]. *)
Definition assign (self : MultiArray) (ranges : list (Z * Z)) (val : T)
  : option MultiArray :=
  let D := length (d_dimensions self) in
  Assign_levels (Assign_last ranges val) ranges (D - 1) 0 [] self.
End Class.
Arguments MultiArray : clear implicits.
End Iter.

(** ** Vocabulary of the specification *)

Definition prod_list (l : list Z) : Z := fold_right Z.mul 1 l.

Definition sum_list (l : list Z) : Z := fold_right Z.add 0 l.

(** [stride k]: the product of the axis sizes strictly to the right of
    axis [k]. *)
Definition stride (dims : list Z) (k : nat) : Z :=
  prod_list (skipn (S k) dims).

(** The row-major offset of a coordinate tuple: the sum over the axes of
    index times stride. *)
Definition row_major (dims idx : list Z) : Z :=
  sum_list (map (fun k => nth k idx 0 * stride dims k)
                (seq 0 (length dims))).

(** The offset of [k] arguments read as indices into the last [k] axes:
    the sum over [m < k] of [j_m * product(dimensions[D-k+m+1 .. D-1])]. *)
Definition trailing_offset (dims js : list Z) : Z :=
  let D := length dims in
  let k := length js in
  sum_list (map (fun m => nth m js 0
                          * prod_list (skipn (D - k + m + 1) dims))
                (seq 0 k)).

(** The same offset by recursion on the axes (Horner form). *)
Fixpoint offset (dims idx : list Z) : Z :=
  match dims, idx with
  | _ :: ds, i :: rest => i * prod_list ds + offset ds rest
  | _, _ => 0
  end.

(** The coordinates of a linear position, most significant axis first. *)
Fixpoint coords (dims : list Z) (o : Z) : list Z :=
  match dims with
  | [] => []
  | _ :: ds => o / prod_list ds :: coords ds (o mod prod_list ds)
  end.

(** A valid coordinate tuple: [0 <= i_k < dimensions[k]] on every axis. *)
Definition in_range (dims idx : list Z) : Prop :=
  Forall2 (fun i d => 0 <= i < d) idx dims.

(** A valid range table: [0 <= begin_k <= end_k <= dimensions[k]]. *)
Definition valid_ranges (dims : list Z) (ranges : list (Z * Z)) : Prop :=
  Forall2 (fun r d => 0 <= fst r <= snd r /\ snd r <= d) ranges dims.

(** [begin_k <= i_k < end_k] on every axis. *)
Fixpoint in_box (ranges : list (Z * Z)) (idx : list Z) : bool :=
  match ranges, idx with
  | [], [] => true
  | r :: rs, i :: rest => (fst r <=? i) && (i <? snd r) && in_box rs rest
  | _, _ => false
  end.

(** The number of coordinate tuples a range table selects. *)
Definition box_size (ranges : list (Z * Z)) : Z :=
  prod_list (map (fun r => snd r - fst r) ranges).

(** The class invariant: at least one axis, axis sizes that are [size_t]
    values, and a backing store with one slot per coordinate tuple; the
    length of a container is itself a [size_t]. *)
Definition well_formed (dims : list Z) (len : nat) : Prop :=
  (1 <= length dims)%nat
  /\ Forall is_size_t dims
  /\ Z.of_nat len = prod_list dims
  /\ Z.of_nat len < SIZE_MOD.

Definition wf {T : Type} (a : Plain.MultiArray T) : Prop :=
  well_formed (Plain.d_dimensions a) (length (Plain.d_data a)).

(** Position [p] of the backing store is selected at level [L] below the
    fixed outer indices [indices]: it is the offset of [indices] extended
    by a tuple inside the ranges of the axes [L ..]. *)
Definition hit (dims : list Z) (ranges : list (Z * Z))
           (L : nat) (indices : list Z) (p : nat) : Prop :=
  exists suffix,
    in_box (skipn L ranges) suffix = true
    /\ Z.of_nat p = offset dims (indices ++ suffix).

(** [data'] is [data] with [val] written at the positions [sel] and
    nothing else changed. *)
Definition fills {T : Type} (val : T) (sel : nat -> Prop)
           (data data' : list T) : Prop :=
  length data' = length data
  /\ (forall p, sel p -> nth_error data' p = Some val)
  /\ (forall p, ~ sel p -> nth_error data' p = nth_error data p)
  /\ (forall p, nth_error data' p = Some val
                \/ nth_error data' p = nth_error data p).

(** Two outcomes agree up to a relation on the final states. *)
Definition opt_rel {A B : Type} (R : A -> B -> Prop)
           (x : option A) (y : option B) : Prop :=
  match x, y with
  | Some a, Some b => R a b
  | None, None => True
  | _, _ => False
  end.

(** The number of times the nest of [n] loops from level [L] on enters
    the last level. *)
Fixpoint leaf_calls (ranges : list (Z * Z)) (n : nat) (L : nat) : Z :=
  match n with
  | O => 1
  | S n' =>
      let r := nth L ranges (0, 0) in
      Z.of_nat (length (loop_values (fst r) (snd r)))
      * leaf_calls ranges n' (L + 1)
  end.

(** The object of the other variants with the same store and axes. *)
Definition of_counted {T : Type} (c : Counted.MultiArray T)
  : Plain.MultiArray T :=
  Plain.mkMultiArray (Counted.d_data c) (Counted.d_dimensions c).

Definition of_iter {T : Type} (i : Iter.MultiArray T) : Plain.MultiArray T :=
  Plain.mkMultiArray (Iter.d_data i) (Iter.d_dimensions i).

(** ** Sample objects *)

(** A 3 x 3 array with distinct elements and the range table
    [{[0,2), [1,3)}]. *)
Definition sample_3x3 : Plain.MultiArray Z :=
  Plain.mkMultiArray [10; 11; 12; 13; 14; 15; 16; 17; 18] [3; 3].

Definition box_3x3 : list (Z * Z) := [(0, 2); (1, 3)].

(** A freshly constructed 2 x 3 x 4 array. *)
Definition sample_2x3x4 : Plain.MultiArray Z :=
  Plain.MultiArray_ctor 0 2 [3; 4].

(** The 3 x 3 array in the variant with the counter and in the iterator
    variant. *)
Definition counted_3x3 : Counted.MultiArray Z :=
  Counted.mkMultiArray [10; 11; 12; 13; 14; 15; 16; 17; 18] [3; 3] 0.

Definition iter_3x3 : Iter.MultiArray Z :=
  Iter.mkMultiArray [10; 11; 12; 13; 14; 15; 16; 17; 18] [3; 3].

(** An array constructed with the sizes 3 and (2^64 + 2) / 3: the
    product of the sizes is 2^64 + 2. *)
Definition overflow_3xN : Plain.MultiArray Z :=
  Plain.MultiArray_ctor 0 3 [6148914691236517206].

(** The 3 x 3 array of the variant with the counter, its public counter
    set to 2^64 - 1, and the array of that variant constructed with the
    sizes 3 and (2^64 + 2) / 3. *)
Definition counted_wrap_3x3 : Counted.MultiArray Z :=
  Counted.mkMultiArray [10; 11; 12; 13; 14; 15; 16; 17; 18] [3; 3]
                       18446744073709551615.

Definition counted_overflow_3xN : Counted.MultiArray Z :=
  Counted.MultiArray_ctor 0 3 [6148914691236517206].

(** ** Further members and vocabulary *)

(** [makeMultiArray<T>(args...)]: the factory takes the arity of the
    array from the number of its arguments and calls the constructor. *)
Definition makeMultiArray {T : Type} (default : T) (head : Z)
           (tail : list Z) : Plain.MultiArray T :=
  Plain.MultiArray_ctor default head tail.

(** The coordinate tuple [idx] with the index of axis [k] incremented. *)
Fixpoint bump (k : nat) (idx : list Z) : list Z :=
  match idx, k with
  | [], _ => []
  | i :: rest, O => (i + 1) :: rest
  | i :: rest, S k' => i :: bump k' rest
  end.

(** The range table that selects every axis in full. *)
Definition full_ranges (dims : list Z) : list (Z * Z) :=
  map (fun d => (0, d)) dims.

(** [data()]: the backing store itself. *)
Definition data {T : Type} (self : Plain.MultiArray T) : list T :=
  Plain.d_data self.

(** A one-dimensional array of ten elements. *)
Definition sample_10 : Plain.MultiArray Z :=
  Plain.mkMultiArray [0; 1; 2; 3; 4; 5; 6; 7; 8; 9] [10].

(** ** Arithmetic in [size_t] *)

Lemma SIZE_MOD_pos : 0 < SIZE_MOD.
Proof. reflexivity. Qed.

Lemma to_size_t_small x : is_size_t x -> to_size_t x = x.
Proof. intros H. apply Z.mod_small. exact H. Qed.

Lemma to_size_t_range x : is_size_t (to_size_t x).
Proof. apply Z.mod_pos_bound. exact SIZE_MOD_pos. Qed.

Lemma to_size_t_idem x : to_size_t (to_size_t x) = to_size_t x.
Proof. apply to_size_t_small, to_size_t_range. Qed.

Lemma to_size_t_mul_l a b : to_size_t (to_size_t a * b) = to_size_t (a * b).
Proof. unfold to_size_t. apply Z.mul_mod_idemp_l. discriminate. Qed.

Lemma to_size_t_mul_r a b : to_size_t (a * to_size_t b) = to_size_t (a * b).
Proof. unfold to_size_t. apply Z.mul_mod_idemp_r. discriminate. Qed.

Lemma to_size_t_add_l a b : to_size_t (to_size_t a + b) = to_size_t (a + b).
Proof. unfold to_size_t. apply Z.add_mod_idemp_l. discriminate. Qed.

Lemma to_size_t_add_r a b : to_size_t (a + to_size_t b) = to_size_t (a + b).
Proof. unfold to_size_t. apply Z.add_mod_idemp_r. discriminate. Qed.

Lemma to_size_t_congr_mul a b b' :
  to_size_t b = to_size_t b' -> to_size_t (a * b) = to_size_t (a * b').
Proof.
  intros H. rewrite <- (to_size_t_mul_r a b), H. apply to_size_t_mul_r.
Qed.

Lemma to_size_t_congr_add a a' b b' :
  to_size_t a = to_size_t a' -> to_size_t b = to_size_t b' ->
  to_size_t (a + b) = to_size_t (a' + b').
Proof.
  intros Ha Hb.
  rewrite <- (to_size_t_add_l a b), Ha, to_size_t_add_l.
  rewrite <- (to_size_t_add_r a' b), Hb. apply to_size_t_add_r.
Qed.

(** ** Lists *)

Lemma skipn_nth_cons {A : Type} (l : list A) (n : nat) (d : A) :
  (n < length l)%nat -> skipn n l = nth n l d :: skipn (S n) l.
Proof.
  revert n. induction l as [|x l IH]; intros [|n] H; simpl in *;
    try lia; try reflexivity.
  apply IH. lia.
Qed.

Lemma prod_list_app l1 l2 : prod_list (l1 ++ l2) = prod_list l1 * prod_list l2.
Proof.
  induction l1 as [|x l1 IH]; simpl.
  - destruct (prod_list l2); reflexivity.
  - rewrite IH. ring.
Qed.

Lemma prod_list_nonneg l : Forall (fun d => 0 <= d) l -> 0 <= prod_list l.
Proof.
  induction 1 as [|x l Hx _ IH]; simpl; [lia | nia].
Qed.

Lemma Forall_size_nonneg l : Forall is_size_t l -> Forall (fun d => 0 <= d) l.
Proof. apply Forall_impl. unfold is_size_t. intros; lia. Qed.

(** ** The factor loop and [indexMap] *)

Lemma factor_loop dims count : forall start acc,
  (start + count = length dims)%nat ->
  to_size_t (fold_left (fun fac idx => to_size_t (fac * nth idx dims 0))
                       (seq start count) acc)
  = to_size_t (acc * prod_list (skipn start dims)).
Proof.
  induction count as [|count IH]; intros start acc H; simpl.
  - rewrite skipn_all2 by lia. simpl. f_equal. ring.
  - rewrite IH by lia.
    rewrite (skipn_nth_cons dims start 0) by lia. simpl.
    rewrite to_size_t_mul_l. f_equal. ring.
Qed.

Lemma axis_factor_spec dims count :
  (count <= length dims)%nat ->
  exists fac, axis_factor dims count = Some fac
              /\ to_size_t fac
                 = to_size_t (prod_list (skipn (length dims - count) dims)).
Proof.
  intros H. unfold axis_factor.
  destruct (Nat.leb_spec count (length dims)); [|lia].
  eexists. split; [reflexivity|].
  rewrite factor_loop by lia. f_equal. ring.
Qed.

Lemma offset_nil_r dims : offset dims [] = 0.
Proof. destruct dims; reflexivity. Qed.

Lemma indexMap_offset dims : forall tail head,
  (S (length tail) <= length dims)%nat ->
  indexMap dims head tail
  = Some (to_size_t
            (offset (skipn (length dims - S (length tail)) dims)
                    (head :: tail))).
Proof.
  induction tail as [|h t IH]; intros head H.
  - cbn [indexMap length] in *.
    destruct (axis_factor_spec dims 0) as (fac & -> & Hfac); [lia|].
    rewrite (skipn_nth_cons dims (length dims - 1) 0) by lia.
    cbn [offset]. f_equal.
    replace (S (length dims - 1)) with (length dims - 0)%nat by lia.
    rewrite offset_nil_r.
    apply to_size_t_congr_add; [|reflexivity].
    apply to_size_t_congr_mul. exact Hfac.
  - cbn [indexMap]. cbn [length] in *.
    destruct (axis_factor_spec dims (S (length t))) as (fac & -> & Hfac);
      [lia|].
    rewrite IH by lia.
    rewrite (skipn_nth_cons dims (length dims - S (S (length t))) 0) by lia.
    replace (S (length dims - S (S (length t))))
      with (length dims - S (length t))%nat by lia.
    cbn [offset]. f_equal.
    rewrite to_size_t_add_r.
    apply to_size_t_congr_add; [|reflexivity].
    apply to_size_t_congr_mul. exact Hfac.
Qed.

Lemma indexMap_pack_full dims args :
  (1 <= length dims)%nat -> length args = length dims ->
  indexMap_pack dims args = Some (to_size_t (offset dims args)).
Proof.
  intros HD Hlen. destruct args as [|h t]; simpl in *; [lia|].
  rewrite indexMap_offset by lia.
  replace (length dims - S (length t))%nat with 0%nat by lia.
  reflexivity.
Qed.

(** ** The row-major offset: bounds, injectivity, surjectivity *)

Lemma in_range_length dims idx : in_range dims idx -> length idx = length dims.
Proof. apply Forall2_length. Qed.

Lemma offset_bounds dims idx :
  in_range dims idx -> 0 <= offset dims idx < prod_list dims.
Proof.
  induction 1 as [|i d rest ds Hi _ IH]; simpl; [lia|].
  fold (prod_list ds). nia.
Qed.

Lemma offset_inj dims idx : forall idx',
  in_range dims idx -> in_range dims idx' ->
  offset dims idx = offset dims idx' -> idx = idx'.
Proof.
  intros idx' H. revert idx'.
  induction H as [|i d rest ds Hi Hrest IH]; intros idx' H' E.
  - inversion H'. reflexivity.
  - inversion H' as [|i' d' rest' ds' Hi' Hrest']; subst.
    simpl in E.
    pose proof (offset_bounds _ _ Hrest) as B.
    pose proof (offset_bounds _ _ Hrest') as B'.
    assert (i = i') by nia. subst i'.
    f_equal. apply IH; [assumption | lia].
Qed.

Lemma coords_spec dims : forall o,
  Forall (fun d => 0 <= d) dims -> 0 <= o < prod_list dims ->
  in_range dims (coords dims o) /\ offset dims (coords dims o) = o.
Proof.
  induction dims as [|d ds IH]; intros o Hd Ho; simpl in *.
  - split; [constructor | lia].
  - fold (prod_list ds) in *.
    inversion Hd as [|? ? Hd0 Hds]; subst.
    pose proof (prod_list_nonneg ds Hds) as HP.
    assert (0 < prod_list ds) as HP' by nia.
    pose proof (Z.mod_pos_bound o (prod_list ds) HP') as Hm.
    destruct (IH (o mod prod_list ds) Hds Hm) as [Hr Ho'].
    split.
    + constructor; [|exact Hr]. split.
      * apply Z.div_pos; lia.
      * apply Z.div_lt_upper_bound; nia.
    + rewrite Ho'. pose proof (Z.div_mod o (prod_list ds)). lia.
Qed.

Lemma row_major_offset dims : forall idx,
  length idx = length dims -> row_major dims idx = offset dims idx.
Proof.
  unfold row_major.
  induction dims as [|d ds IH]; intros [|i rest] H; simpl in *;
    try lia; try reflexivity.
  rewrite <- seq_shift, map_map.
  f_equal. rewrite <- IH by lia. reflexivity.
Qed.

Lemma trailing_offset_offset dims js :
  (length js <= length dims)%nat ->
  trailing_offset dims js
  = offset (skipn (length dims - length js) dims) js.
Proof.
  intros H. rewrite <- row_major_offset by (rewrite length_skipn; lia).
  unfold trailing_offset, row_major, stride.
  rewrite length_skipn.
  replace (length dims - (length dims - length js))%nat
    with (length js) by lia.
  f_equal. apply map_ext. intros m.
  rewrite skipn_skipn. do 3 f_equal. lia.
Qed.

(** ** The library algorithm and element access *)

Section FillFacts.
Context {T : Type}.

Lemma fill_spec (data : list T) (first last : Z) (val : T) :
  0 <= first <= last -> last <= Z.of_nat (length data) ->
  exists data',
    fill data first last val = Some data'
    /\ length data' = length data
    /\ forall p, nth_error data' p
                 = if (first <=? Z.of_nat p) && (Z.of_nat p <? last)
                   then Some val else nth_error data p.
Proof.
  intros H1 H2. unfold fill.
  destruct (Z.eqb_spec first last) as [->|Hne].
  - exists data. repeat split; auto. intros p.
    destruct (Z.leb_spec last (Z.of_nat p)), (Z.ltb_spec (Z.of_nat p) last);
      simpl; try reflexivity; lia.
  - destruct (Z.leb_spec 0 first); [|lia].
    destruct (Z.ltb_spec first last); [|lia].
    destruct (Z.leb_spec last (Z.of_nat (length data))); [|lia]. simpl.
    eexists. split; [reflexivity|]. split.
    + rewrite !length_app, repeat_length, length_firstn, length_skipn. lia.
    + intros p.
      rewrite nth_error_app, length_firstn, Nat.min_l by lia.
      destruct (Nat.ltb_spec p (Z.to_nat first)).
      * rewrite nth_error_firstn.
        destruct (Nat.ltb_spec p (Z.to_nat first)); [|lia].
        destruct (Z.leb_spec first (Z.of_nat p)); [lia|]. reflexivity.
      * rewrite nth_error_app, repeat_length.
        destruct (Z.leb_spec first (Z.of_nat p)); [|lia].
        destruct (Nat.ltb_spec (p - Z.to_nat first) (Z.to_nat (last - first))).
        -- rewrite nth_error_repeat by lia.
           destruct (Z.ltb_spec (Z.of_nat p) last); [|lia]. reflexivity.
        -- rewrite nth_error_skipn.
           destruct (Z.ltb_spec (Z.of_nat p) last); [lia|]. simpl.
           f_equal. lia.
Qed.

Lemma fill_length (data data' : list T) (first last : Z) (val : T) :
  fill data first last val = Some data' -> length data' = length data.
Proof.
  unfold fill. destruct (first =? last); [congruence|].
  destruct (Z.leb_spec 0 first); simpl; [|discriminate].
  destruct (Z.ltb_spec first last); simpl; [|discriminate].
  destruct (Z.leb_spec last (Z.of_nat (length data))); [|discriminate].
  intros E. injection E as <-.
  rewrite !length_app, repeat_length, length_firstn, length_skipn. lia.
Qed.

Lemma fill_empty (data : list T) (first : Z) (val : T) :
  fill data first first val = Some data.
Proof. unfold fill. rewrite Z.eqb_refl. reflexivity. Qed.

Lemma store_spec (data : list T) (i : Z) (val : T) :
  0 <= i < Z.of_nat (length data) ->
  exists data',
    store data i val = Some data'
    /\ length data' = length data
    /\ forall p, nth_error data' p
                 = if (p =? Z.to_nat i)%nat then Some val
                   else nth_error data p.
Proof.
  intros H. unfold store.
  destruct (Z.leb_spec 0 i); [|lia].
  destruct (Z.ltb_spec i (Z.of_nat (length data))); [|lia]. cbn [andb].
  eexists. split; [reflexivity|]. split.
  - rewrite length_app, length_firstn. cbn [length]. rewrite length_skipn. lia.
  - intros p. rewrite nth_error_app, length_firstn, Nat.min_l by lia.
    destruct (Nat.ltb_spec p (Z.to_nat i)).
    + rewrite nth_error_firstn.
      destruct (Nat.ltb_spec p (Z.to_nat i)); [|lia].
      destruct (Nat.eqb_spec p (Z.to_nat i)); [lia|]. reflexivity.
    + destruct (Nat.eqb_spec p (Z.to_nat i)) as [->|Hne].
      * rewrite Nat.sub_diag. reflexivity.
      * destruct (p - Z.to_nat i)%nat as [|k] eqn:E; [lia|]. cbn [nth_error].
        rewrite nth_error_skipn. f_equal. lia.
Qed.

Lemma store_length (data data' : list T) (i : Z) (val : T) :
  store data i val = Some data' -> length data' = length data.
Proof.
  intros E.
  assert (0 <= i < Z.of_nat (length data)) as H.
  { unfold store in E.
    destruct (Z.leb_spec 0 i), (Z.ltb_spec i (Z.of_nat (length data)));
      cbn [andb] in E; try discriminate; lia. }
  destruct (store_spec data i val H) as (d & E' & L & _). congruence.
Qed.

Lemma fills_none (val : T) (data : list T) :
  fills val (fun _ => False) data data.
Proof. repeat split; auto. intros p []. Qed.

Lemma fills_seq (val : T) (sel1 sel2 : nat -> Prop) (d0 d1 d2 : list T) :
  fills val sel1 d0 d1 -> fills val sel2 d1 d2 ->
  fills val (fun p => sel1 p \/ sel2 p) d0 d2.
Proof.
  intros (L1 & A1 & B1 & C1) (L2 & A2 & B2 & C2). repeat split.
  - congruence.
  - intros p [H|H]; [|auto].
    destruct (C2 p) as [E|E]; [exact E|]. rewrite E. auto.
  - intros p H. rewrite B2, B1; tauto.
  - intros p. destruct (C2 p) as [E|E]; [auto|].
    destruct (C1 p) as [E'|E']; [left|right]; congruence.
Qed.

Lemma fills_ext (val : T) (sel sel' : nat -> Prop) (d d' : list T) :
  (forall p, sel p <-> sel' p) -> fills val sel d d' -> fills val sel' d d'.
Proof.
  intros E (L & A & B & C). repeat split; auto.
  - intros p H. apply A, E, H.
  - intros p H. apply B. rewrite E. exact H.
Qed.

End FillFacts.

(** ** Loops, boxes and selected positions *)

Lemma firstn_succ_snoc {A : Type} (l : list A) (n : nat) (d : A) :
  (n < length l)%nat -> firstn (S n) l = firstn n l ++ [nth n l d].
Proof.
  revert n. induction l as [|x l IH]; intros [|n] H; simpl in *;
    try lia; try reflexivity.
  f_equal. apply IH. lia.
Qed.

Lemma Forall2_nth {A B : Type} (R : A -> B -> Prop) l1 l2 :
  Forall2 R l1 l2 ->
  forall n d1 d2, (n < length l1)%nat -> R (nth n l1 d1) (nth n l2 d2).
Proof.
  induction 1 as [|x y l1 l2 Hxy _ IH]; intros [|n] d1 d2 Hn; simpl in *;
    try lia; auto.
  apply IH. lia.
Qed.

Lemma loop_values_valid b e :
  0 <= b <= e -> e < SIZE_MOD ->
  loop_values b e
  = map (fun j => b + Z.of_nat j) (seq 0 (Z.to_nat (e - b))).
Proof.
  intros H He. unfold loop_values.
  rewrite (to_size_t_small (e - b)) by (unfold is_size_t; lia).
  apply map_ext_in. intros j Hj. apply in_seq in Hj.
  apply to_size_t_small. unfold is_size_t. lia.
Qed.

Lemma in_loop_values b e i :
  0 <= b <= e -> e < SIZE_MOD ->
  In i (loop_values b e) <-> b <= i < e.
Proof.
  intros H He. rewrite loop_values_valid by assumption.
  rewrite in_map_iff. split.
  - intros (j & <- & Hj). apply in_seq in Hj. lia.
  - intros Hi. exists (Z.to_nat (i - b)). split; [lia|].
    apply in_seq. lia.
Qed.

Lemma loop_values_empty b : loop_values b b = [].
Proof.
  unfold loop_values. rewrite Z.sub_diag. reflexivity.
Qed.

Lemma in_box_length rs : forall idx,
  in_box rs idx = true -> length idx = length rs.
Proof.
  induction rs as [|r rs IH]; intros [|i idx] H; simpl in *;
    try discriminate; try reflexivity.
  apply andb_prop in H. destruct H as [_ H]. f_equal. apply IH, H.
Qed.

Lemma in_box_app rs1 : forall rs2 i1 i2,
  length i1 = length rs1 ->
  in_box (rs1 ++ rs2) (i1 ++ i2) = in_box rs1 i1 && in_box rs2 i2.
Proof.
  induction rs1 as [|r rs1 IH]; intros rs2 [|i i1] i2 H; simpl in *;
    try lia; try reflexivity.
  rewrite IH by lia. rewrite andb_assoc. reflexivity.
Qed.

Lemma in_box_single r x : in_box [r] [x] = (fst r <=? x) && (x <? snd r).
Proof. simpl. apply andb_true_r. Qed.

Lemma in_box_in_range dims rs :
  valid_ranges dims rs ->
  forall idx, in_box rs idx = true -> in_range dims idx.
Proof.
  induction 1 as [|r d rs ds Hr _ IH]; intros [|i idx] H; simpl in *;
    try discriminate; [constructor|].
  apply andb_prop in H. destruct H as [H1 H2].
  apply andb_prop in H1. destruct H1 as [Ha Hb].
  apply Z.leb_le in Ha. apply Z.ltb_lt in Hb.
  constructor; [lia | apply IH, H2].
Qed.

Lemma in_range_in_box dims rs :
  valid_ranges dims rs ->
  forall idx, in_box rs idx = true -> Forall (fun i => 0 <= i) idx.
Proof.
  intros Hv idx H. pose proof (in_box_in_range _ _ Hv _ H) as Hr.
  clear Hv H.
  induction Hr; [constructor | constructor; [lia | assumption]].
Qed.

Lemma offset_snoc dims : forall pre x,
  (length pre + 1 = length dims)%nat ->
  offset dims (pre ++ [x]) = offset dims (pre ++ [0]) + x.
Proof.
  induction dims as [|d ds IH]; intros [|i pre] x H; simpl in *; try lia.
  - destruct ds; simpl in *; [lia | lia].
  - fold (prod_list ds). rewrite (IH pre x) by lia. lia.
Qed.

Lemma offset_nonneg dims : forall idx,
  Forall (fun d => 0 <= d) dims -> Forall (fun i => 0 <= i) idx ->
  0 <= offset dims idx.
Proof.
  induction dims as [|d ds IH]; intros [|i idx] Hd Hi; simpl; try lia.
  inversion Hd; inversion Hi; subst. fold (prod_list ds).
  pose proof (prod_list_nonneg ds ltac:(assumption)).
  pose proof (IH idx ltac:(assumption) ltac:(assumption)). nia.
Qed.

Lemma offset_snoc_le ds : forall pre x dl,
  in_range ds pre -> 0 <= x <= dl ->
  0 <= offset (ds ++ [dl]) (pre ++ [x]) <= prod_list (ds ++ [dl]).
Proof.
  intros pre x dl H Hx.
  induction H as [|i d pre ds Hi _ IH]; simpl.
  - lia.
  - fold (prod_list (ds ++ [dl])). nia.
Qed.

Lemma split_last {A : Type} (l : list A) (d : A) :
  (1 <= length l)%nat ->
  l = firstn (length l - 1) l ++ [nth (length l - 1) l d].
Proof.
  intros H. rewrite <- (firstn_succ_snoc l (length l - 1) d) by lia.
  rewrite firstn_all2 by lia. reflexivity.
Qed.

Lemma hit_step dims ranges L indices p :
  (L < length ranges)%nat ->
  hit dims ranges L indices p
  <-> exists i, (fst (nth L ranges (0, 0)) <= i < snd (nth L ranges (0, 0)))
                /\ hit dims ranges (S L) (indices ++ [i]) p.
Proof.
  intros HL. unfold hit.
  rewrite (skipn_nth_cons ranges L (0, 0)) by lia. split.
  - intros ([|i s] & Hb & Hp); cbn [in_box] in Hb; [discriminate|].
    apply andb_prop in Hb. destruct Hb as [H1 H2].
    apply andb_prop in H1. destruct H1 as [Ha Hb].
    apply Z.leb_le in Ha. apply Z.ltb_lt in Hb.
    exists i. split; [lia|]. exists s. split; [exact H2|].
    rewrite <- app_assoc. exact Hp.
  - intros (i & Hi & s & Hb & Hp). exists (i :: s). split.
    + cbn [in_box]. rewrite Hb.
      destruct (Z.leb_spec (fst (nth L ranges (0, 0))) i); [|lia].
      destruct (Z.ltb_spec i (snd (nth L ranges (0, 0)))); [|lia].
      reflexivity.
    + rewrite <- app_assoc in Hp. exact Hp.
Qed.

Lemma hit_last dims ranges indices p :
  (1 <= length ranges)%nat ->
  hit dims ranges (length ranges - 1) indices p
  <-> exists x, (fst (nth (length ranges - 1) ranges (0, 0)) <= x
                 < snd (nth (length ranges - 1) ranges (0, 0)))
                /\ Z.of_nat p = offset dims (indices ++ [x]).
Proof.
  intros H. rewrite hit_step by lia.
  replace (S (length ranges - 1)) with (length ranges) by lia.
  unfold hit. rewrite skipn_all. split.
  - intros (x & Hx & [|? ?] & Hb & Hp); simpl in Hb; [|discriminate].
    rewrite app_nil_r in Hp. eauto.
  - intros (x & Hx & Hp). exists x. split; [exact Hx|].
    exists []. rewrite app_nil_r. auto.
Qed.

(** ** Range assignment writes the selected runs

    The range table is constrained on the outer axes only; on the last
    axis it is enough that [begin <= end] and that every run ends inside
    the backing store. *)

Section RangeAssign.
Context {T : Type}.
Variable val : T.
Variable dims : list Z.
Variable ranges : list (Z * Z).

Hypothesis dims_nonempty : (1 <= length dims)%nat.
Hypothesis dims_size : Forall is_size_t dims.
Hypothesis total_size : prod_list dims < SIZE_MOD.
Hypothesis ranges_length : length ranges = length dims.
Hypothesis outer_valid :
  valid_ranges (firstn (length dims - 1) dims)
               (firstn (length dims - 1) ranges).
Hypothesis last_ordered :
  0 <= fst (nth (length dims - 1) ranges (0, 0))
    <= snd (nth (length dims - 1) ranges (0, 0)).
Hypothesis runs_fit : forall pre,
  in_box (firstn (length dims - 1) ranges) pre = true ->
  offset dims (pre ++ [snd (nth (length dims - 1) ranges (0, 0))])
  <= prod_list dims.

Lemma Assign_last_fills indices data :
  in_box (firstn (length dims - 1) ranges) indices = true ->
  Z.of_nat (length data) = prod_list dims ->
  exists data',
    Plain.Assign_last ranges val indices (Plain.mkMultiArray data dims)
    = Some (Plain.mkMultiArray data' dims)
    /\ fills val (hit dims ranges (length dims - 1) indices) data data'.
Proof.
  intros Hbox Hlen.
  pose proof (in_box_length _ _ Hbox) as Hli.
  rewrite length_firstn, Nat.min_l in Hli by lia.
  pose proof (runs_fit indices Hbox) as Hfit.
  pose proof last_ordered as Hord.
  unfold Plain.Assign_last. cbn [Plain.d_dimensions Plain.d_data].
  set (b := fst (nth (length dims - 1) ranges (0, 0))) in *.
  set (e := snd (nth (length dims - 1) ranges (0, 0))) in *.
  rewrite indexMap_pack_full by (rewrite ?length_app; simpl; lia).
  rewrite (offset_snoc dims indices e) in Hfit by lia.
  rewrite (offset_snoc dims indices b) by lia.
  assert (0 <= offset dims (indices ++ [0])) as Hnn.
  { apply offset_nonneg.
    - apply Forall_size_nonneg, dims_size.
    - apply Forall_app. split.
      + eapply in_range_in_box; [exact outer_valid | exact Hbox].
      + constructor; [lia | constructor]. }
  set (B0 := offset dims (indices ++ [0])) in *.
  rewrite (to_size_t_small (B0 + b)) by (unfold is_size_t; lia).
  rewrite (to_size_t_small (e - b)) by (unfold is_size_t; lia).
  rewrite (to_size_t_small (B0 + b + (e - b))) by (unfold is_size_t; lia).
  destruct (fill_spec data (B0 + b) (B0 + b + (e - b)) val)
    as (data' & -> & Hl & Hnth); [lia | lia |].
  exists data'. split; [reflexivity|].
  assert (forall p, hit dims ranges (length dims - 1) indices p
                    <-> B0 + b <= Z.of_nat p < B0 + b + (e - b)) as Hhit.
  { intros p. pose proof (hit_last dims ranges indices p) as Hh.
    rewrite ranges_length in Hh. rewrite Hh by lia. fold b e. split.
    - intros (x & Hx & Hp). rewrite (offset_snoc dims indices x) in Hp by lia.
      fold B0 in Hp. lia.
    - intros Hp. exists (Z.of_nat p - B0). split; [lia|].
      rewrite (offset_snoc dims indices) by lia. fold B0. lia. }
  split; [exact Hl|]. split; [|split].
  - intros p Hp. apply Hhit in Hp. rewrite Hnth.
    destruct (Z.leb_spec (B0 + b) (Z.of_nat p)); [|lia].
    destruct (Z.ltb_spec (Z.of_nat p) (B0 + b + (e - b))); [|lia].
    reflexivity.
  - intros p Hp. rewrite Hnth.
    destruct (Z.leb_spec (B0 + b) (Z.of_nat p)); [|reflexivity].
    destruct (Z.ltb_spec (Z.of_nat p) (B0 + b + (e - b))); [|reflexivity].
    exfalso. apply Hp, Hhit. lia.
  - intros p. rewrite Hnth.
    destruct ((B0 + b <=? Z.of_nat p) && (Z.of_nat p <? B0 + b + (e - b)));
      auto.
Qed.

Lemma outer_range L :
  (L < length dims - 1)%nat ->
  0 <= fst (nth L ranges (0, 0)) <= snd (nth L ranges (0, 0))
  /\ snd (nth L ranges (0, 0)) < SIZE_MOD.
Proof.
  intros HL.
  pose proof (Forall2_nth _ _ _ outer_valid L (0, 0) 0) as H.
  rewrite !nth_firstn in H.
  destruct (Nat.ltb_spec L (length dims - 1)); [|lia].
  rewrite length_firstn in H.
  pose proof (proj1 (Forall_nth _ _) dims_size L 0) as Hd.
  unfold is_size_t in Hd. lia.
Qed.

Lemma Assign_levels_fills : forall n L indices data,
  (L + n + 1 = length dims)%nat ->
  in_box (firstn L ranges) indices = true ->
  Z.of_nat (length data) = prod_list dims ->
  exists data',
    Assign_levels (Plain.Assign_last ranges val) ranges n L indices
                  (Plain.mkMultiArray data dims)
    = Some (Plain.mkMultiArray data' dims)
    /\ fills val (hit dims ranges L indices) data data'.
Proof.
  induction n as [|n IH]; intros L indices data HL Hbox Hlen.
  - replace L with (length dims - 1)%nat in * by lia.
    apply Assign_last_fills; assumption.
  - cbn [Assign_levels]. rewrite Nat.add_1_r.
    destruct (outer_range L) as [Hr Hr']; [lia|].
    pose proof (in_box_length _ _ Hbox) as Hli.
    rewrite length_firstn, Nat.min_l in Hli by lia.
    set (r := nth L ranges (0, 0)) in *.
    assert (forall vs d,
               (forall i, In i vs -> fst r <= i < snd r) ->
               Z.of_nat (length d) = prod_list dims ->
               exists d',
                 for_each
                   (fun i s =>
                      Assign_levels (Plain.Assign_last ranges val) ranges n
                                    (S L) (indices ++ [i]) s)
                   vs (Plain.mkMultiArray d dims)
                 = Some (Plain.mkMultiArray d' dims)
                 /\ fills val
                      (fun p => exists i,
                           In i vs
                           /\ hit dims ranges (S L) (indices ++ [i]) p)
                      d d') as Hloop.
    { induction vs as [|i vs IHvs]; intros d Hin Hd.
      - exists d. split; [reflexivity|].
        eapply fills_ext; [|apply fills_none].
        intros p. split; [tauto | intros (i & [] & _)].
      - cbn [for_each].
        destruct (IH (S L) (indices ++ [i]) d) as (d1 & -> & F1);
          [lia | | exact Hd |].
        { rewrite (firstn_succ_snoc ranges L (0, 0)) by lia.
          rewrite in_box_app by (rewrite length_firstn; lia).
          rewrite Hbox, in_box_single.
          fold r. specialize (Hin i (or_introl eq_refl)).
          destruct (Z.leb_spec (fst r) i); [|lia].
          destruct (Z.ltb_spec i (snd r)); [|lia]. reflexivity. }
        destruct (IHvs d1) as (d2 & E2 & F2).
        { intros j Hj. apply Hin. right. exact Hj. }
        { destruct F1 as [F1 _]. rewrite F1. exact Hd. }
        exists d2. split; [exact E2|].
        eapply fills_ext; [|eapply fills_seq; eassumption].
        intros p. cbn beta. split.
        + intros [H|(j & Hj & H)]; [exists i | exists j]; simpl; auto.
        + intros (j & [<-|Hj] & H); [left | right]; eauto. }
    destruct (Hloop (loop_values (fst r) (snd r)) data)
      as (d' & E & F); [|exact Hlen|].
    { intros i Hi. apply in_loop_values in Hi; assumption. }
    exists d'. split; [exact E|].
    eapply fills_ext; [|exact F].
    intros p. cbn beta. rewrite hit_step by lia. fold r. split.
    + intros (i & Hi & H). exists i. split; [|exact H].
      apply in_loop_values in Hi; assumption.
    + intros (i & Hi & H). exists i. split; [|exact H].
      apply in_loop_values; assumption.
Qed.

End RangeAssign.

(** ** The loop nest, for any last level *)

Section LoopNest.
Context {S1 S2 : Type}.
Variable R : S1 -> S2 -> Prop.
Variable last1 : list Z -> S1 -> option S1.
Variable last2 : list Z -> S2 -> option S2.
Variable ranges : list (Z * Z).

Hypothesis last_sim : forall indices s1 s2,
  R s1 s2 -> opt_rel R (last1 indices s1) (last2 indices s2).

Lemma for_each_sim (body1 : Z -> S1 -> option S1)
      (body2 : Z -> S2 -> option S2) :
  (forall i s1 s2, R s1 s2 -> opt_rel R (body1 i s1) (body2 i s2)) ->
  forall vs s1 s2, R s1 s2 ->
  opt_rel R (for_each body1 vs s1) (for_each body2 vs s2).
Proof.
  intros Hbody. induction vs as [|i vs IH]; intros s1 s2 H; simpl.
  - exact H.
  - pose proof (Hbody i s1 s2 H) as Hi.
    destruct (body1 i s1), (body2 i s2); simpl in Hi; try contradiction.
    + apply IH, Hi.
    + exact I.
Qed.

Lemma Assign_levels_sim : forall n L indices s1 s2,
  R s1 s2 ->
  opt_rel R (Assign_levels last1 ranges n L indices s1)
            (Assign_levels last2 ranges n L indices s2).
Proof.
  induction n as [|n IH]; intros L indices s1 s2 H; cbn [Assign_levels].
  - apply last_sim, H.
  - apply for_each_sim; [|exact H].
    intros i t1 t2 Ht. apply IH, Ht.
Qed.

End LoopNest.

Section LoopNestInvariant.
Context {S : Type}.
Variable P : S -> S -> Prop.
Variable last : list Z -> S -> option S.
Variable ranges : list (Z * Z).

Hypothesis P_refl : forall s, P s s.
Hypothesis P_trans : forall s t u, P s t -> P t u -> P s u.
Hypothesis last_keeps : forall indices s s',
  last indices s = Some s' -> P s s'.

Lemma for_each_keeps (body : Z -> S -> option S) :
  (forall i s s', body i s = Some s' -> P s s') ->
  forall vs s s', for_each body vs s = Some s' -> P s s'.
Proof.
  intros Hbody. induction vs as [|i vs IH]; intros s s' E; simpl in E.
  - injection E as <-. apply P_refl.
  - destruct (body i s) as [t|] eqn:Et; [|discriminate].
    eapply P_trans; [eapply Hbody, Et | apply IH, E].
Qed.

Lemma Assign_levels_keeps : forall n L indices s s',
  Assign_levels last ranges n L indices s = Some s' -> P s s'.
Proof.
  induction n as [|n IH]; intros L indices s s' E; cbn [Assign_levels] in E.
  - eapply last_keeps, E.
  - eapply for_each_keeps; [|exact E].
    intros i t t' Et. eapply IH, Et.
Qed.

End LoopNestInvariant.

Lemma for_each_fixed {S : Type} (body : Z -> S -> option S) (s : S) vs :
  (forall i, In i vs -> body i s = Some s) -> for_each body vs s = Some s.
Proof.
  induction vs as [|i vs IH]; intros H; simpl; [reflexivity|].
  rewrite H by (left; reflexivity). apply IH.
  intros j Hj. apply H. right. exact Hj.
Qed.

(** ** Facts about [Plain] *)

Section PlainFacts.
Context {T : Type}.

Lemma Forall2_firstn {A B : Type} (R : A -> B -> Prop) l1 l2 n :
  Forall2 R l1 l2 -> Forall2 R (firstn n l1) (firstn n l2).
Proof.
  intros H. revert n.
  induction H as [|x y l1 l2 Hxy _ IH]; intros [|n]; simpl;
    constructor; auto.
Qed.

Lemma in_range_cast dims idx :
  Forall is_size_t dims -> in_range dims idx -> map to_size_t idx = idx.
Proof.
  intros Hd H. induction H as [|i d idx ds Hi _ IH]; simpl; [reflexivity|].
  inversion Hd as [|? ? Hd0 Hds]; subst.
  rewrite IH by assumption. f_equal.
  apply to_size_t_small. unfold is_size_t in *. lia.
Qed.

Lemma offset_cast dims : forall idx,
  to_size_t (offset dims (map to_size_t idx)) = to_size_t (offset dims idx).
Proof.
  induction dims as [|d ds IH]; intros [|i idx]; simpl; try reflexivity.
  apply to_size_t_congr_add; [|apply IH].
  apply to_size_t_mul_l.
Qed.

Lemma index_in_range (a : Plain.MultiArray T) idx :
  wf a -> in_range (Plain.d_dimensions a) idx ->
  Plain.index a idx = Some (offset (Plain.d_dimensions a) idx)
  /\ 0 <= offset (Plain.d_dimensions a) idx
     < Z.of_nat (length (Plain.d_data a)).
Proof.
  intros (HD & Hsz & Hlen & Hmax) Hr.
  pose proof (offset_bounds _ _ Hr) as Hb.
  pose proof (in_range_length _ _ Hr) as Hl.
  split; [|lia]. unfold Plain.index.
  rewrite (in_range_cast _ _ Hsz Hr).
  rewrite indexMap_pack_full by lia.
  f_equal. apply to_size_t_small. unfold is_size_t. lia.
Qed.

Lemma Assign_last_keeps ranges (val : T) indices (s s' : Plain.MultiArray T) :
  Plain.Assign_last ranges val indices s = Some s' ->
  length (Plain.d_data s') = length (Plain.d_data s)
  /\ Plain.d_dimensions s' = Plain.d_dimensions s.
Proof.
  unfold Plain.Assign_last.
  destruct (indexMap_pack _ _) as [begin|]; [|discriminate].
  destruct (fill _ _ _ _) as [data|] eqn:E; [|discriminate].
  intros H. injection H as <-. simpl. split; [|reflexivity].
  eapply fill_length, E.
Qed.

Lemma assign_keeps ranges (val : T) (s s' : Plain.MultiArray T) :
  Plain.assign s ranges val = Some s' ->
  length (Plain.d_data s') = length (Plain.d_data s)
  /\ Plain.d_dimensions s' = Plain.d_dimensions s.
Proof.
  unfold Plain.assign.
  apply (Assign_levels_keeps
           (fun s s' : Plain.MultiArray T =>
              length (Plain.d_data s') = length (Plain.d_data s)
              /\ Plain.d_dimensions s' = Plain.d_dimensions s)).
  - intros; split; reflexivity.
  - intros s0 t u [H1 H2] [H3 H4]. split; congruence.
  - intros indices s0 s0'. apply Assign_last_keeps.
Qed.

Lemma Assign_last_empty ranges (val : T) indices (a : Plain.MultiArray T) :
  (length indices + 1 = length (Plain.d_dimensions a))%nat ->
  fst (nth (length (Plain.d_dimensions a) - 1) ranges (0, 0))
  = snd (nth (length (Plain.d_dimensions a) - 1) ranges (0, 0)) ->
  Plain.Assign_last ranges val indices a = Some a.
Proof.
  intros Hl He. unfold Plain.Assign_last.
  rewrite indexMap_pack_full by (rewrite ?length_app; simpl; lia).
  rewrite He, Z.sub_diag.
  change (to_size_t 0) with 0. rewrite Z.add_0_r, to_size_t_idem.
  rewrite fill_empty. destruct a; reflexivity.
Qed.

Lemma Assign_levels_empty ranges (val : T) (a : Plain.MultiArray T) k :
  fst (nth k ranges (0, 0)) = snd (nth k ranges (0, 0)) ->
  forall n L indices,
  (L + n + 1 = length (Plain.d_dimensions a))%nat ->
  length indices = L -> (L <= k < length (Plain.d_dimensions a))%nat ->
  Assign_levels (Plain.Assign_last ranges val) ranges n L indices a = Some a.
Proof.
  intros He. induction n as [|n IH]; intros L indices HL Hi Hk;
    cbn [Assign_levels].
  - replace k with (length (Plain.d_dimensions a) - 1)%nat in He by lia.
    apply Assign_last_empty; [lia | exact He].
  - destruct (Nat.eq_dec k L) as [->|Hne].
    + rewrite He, loop_values_empty. reflexivity.
    + apply for_each_fixed. intros i _. apply IH; [lia | | lia].
      rewrite length_app. simpl. lia.
Qed.

Lemma assign_empty ranges (val : T) (a : Plain.MultiArray T) k :
  (k < length (Plain.d_dimensions a))%nat ->
  fst (nth k ranges (0, 0)) = snd (nth k ranges (0, 0)) ->
  Plain.assign a ranges val = Some a.
Proof.
  intros Hk He. unfold Plain.assign.
  apply (Assign_levels_empty ranges val a k He); simpl; lia.
Qed.

Lemma assign_runs ranges (val : T) (a : Plain.MultiArray T) :
  wf a ->
  length ranges = length (Plain.d_dimensions a) ->
  valid_ranges
    (firstn (length (Plain.d_dimensions a) - 1) (Plain.d_dimensions a))
    (firstn (length (Plain.d_dimensions a) - 1) ranges) ->
  0 <= fst (nth (length (Plain.d_dimensions a) - 1) ranges (0, 0))
    <= snd (nth (length (Plain.d_dimensions a) - 1) ranges (0, 0)) ->
  (forall pre,
      in_box (firstn (length (Plain.d_dimensions a) - 1) ranges) pre = true ->
      offset (Plain.d_dimensions a)
             (pre ++ [snd (nth (length (Plain.d_dimensions a) - 1)
                               ranges (0, 0))])
      <= prod_list (Plain.d_dimensions a)) ->
  exists data',
    Plain.assign a ranges val
    = Some (Plain.mkMultiArray data' (Plain.d_dimensions a))
    /\ fills val
         (fun p => exists idx,
              in_box ranges idx = true
              /\ Z.of_nat p = offset (Plain.d_dimensions a) idx)
         (Plain.d_data a) data'.
Proof.
  destruct a as [data dims]. unfold wf, well_formed. simpl.
  intros (HD & Hsz & Hlen & Hmax) Hrl Hout Hlast Hfit.
  destruct (Assign_levels_fills val dims ranges HD Hsz ltac:(lia) Hrl Hout
              Hlast Hfit (length dims - 1) 0 [] data)
    as (data' & E & F); [lia | reflexivity | exact Hlen |].
  exists data'. split; [exact E|].
  eapply fills_ext; [|exact F].
  intros p. unfold hit. simpl. tauto.
Qed.

Lemma valid_runs_fit dims ranges :
  (1 <= length dims)%nat -> valid_ranges dims ranges ->
  valid_ranges (firstn (length dims - 1) dims)
               (firstn (length dims - 1) ranges)
  /\ 0 <= fst (nth (length dims - 1) ranges (0, 0))
       <= snd (nth (length dims - 1) ranges (0, 0))
  /\ forall pre,
      in_box (firstn (length dims - 1) ranges) pre = true ->
      offset dims (pre ++ [snd (nth (length dims - 1) ranges (0, 0))])
      <= prod_list dims.
Proof.
  intros HD Hv.
  pose proof (Forall2_length Hv) as Hl.
  pose proof (Forall2_firstn _ _ _ (length dims - 1) Hv) as Hout.
  pose proof (Forall2_nth _ _ _ Hv (length dims - 1)%nat (0, 0) 0
                ltac:(lia)) as Hlast.
  cbv beta in Hlast.
  split; [exact Hout|]. split; [lia|].
  intros pre Hpre.
  pose proof (in_box_in_range _ _ Hout _ Hpre) as Hr.
  rewrite (split_last dims 0 HD) at 1 3.
  apply offset_snoc_le; [exact Hr | lia].
Qed.

Lemma assign_valid ranges (val : T) (a : Plain.MultiArray T) :
  wf a -> valid_ranges (Plain.d_dimensions a) ranges ->
  exists data',
    Plain.assign a ranges val
    = Some (Plain.mkMultiArray data' (Plain.d_dimensions a))
    /\ fills val
         (fun p => exists idx,
              in_box ranges idx = true
              /\ Z.of_nat p = offset (Plain.d_dimensions a) idx)
         (Plain.d_data a) data'.
Proof.
  intros Hwf Hv.
  destruct (valid_runs_fit _ _ (proj1 Hwf) Hv) as (Hout & Hlast & Hfit).
  apply assign_runs; auto.
  apply (Forall2_length Hv).
Qed.

End PlainFacts.

(** * The claims *)

Ltac solve_wf :=
  unfold wf, well_formed; cbn;
  repeat split;
  try (repeat constructor; unfold is_size_t, SIZE_MOD; cbn; lia);
  try lia; try reflexivity.

Ltac solve_range :=
  repeat constructor; cbn; lia.

(** C2 (the claim fails).  On the array constructed with the sizes 3 and
    6148914691236517206, the in-range tuple (2, 6148914691236517205) has
    the row-major sum 2 * 6148914691236517206 + 6148914691236517205, that
    is 2^64 + 1, and [index] returns 1: the sum is computed in
    [size_t]. *)
Lemma index_row_major_counterexample :
  in_range (Plain.d_dimensions overflow_3xN) [2; 6148914691236517205]
  /\ Plain.index overflow_3xN [2; 6148914691236517205] = Some 1
  /\ row_major (Plain.d_dimensions overflow_3xN) [2; 6148914691236517205]
     = 2 ^ 64 + 1.
Proof.
  split; [solve_range|]. split; reflexivity.
Qed.

(** C2 (as amended).  For an array whose axis sizes have a product below
    2^64 that is the length of the backing store (the class invariant)
    and a tuple of D in-range indices, [index] returns the row-major
    offset: the sum over the axes of index times stride, the stride of
    axis [k] being the product of the axis sizes to its right and the
    stride of the last axis 1; [operator()] reads the element at that
    offset. *)
Theorem index_row_major {T : Type} (a : Plain.MultiArray T) (idx : list Z) :
  wf a -> in_range (Plain.d_dimensions a) idx ->
  Plain.index a idx = Some (row_major (Plain.d_dimensions a) idx)
  /\ Plain.call a idx
     = load (Plain.d_data a) (row_major (Plain.d_dimensions a) idx)
  /\ stride (Plain.d_dimensions a) (length (Plain.d_dimensions a) - 1) = 1.
Proof.
  intros Hwf Hr.
  destruct (index_in_range a idx Hwf Hr) as [E _].
  rewrite row_major_offset by (apply in_range_length, Hr).
  split; [exact E|]. split.
  - unfold Plain.call. rewrite E. reflexivity.
  - unfold stride. rewrite skipn_all2; [reflexivity|]. lia.
Qed.

Lemma index_row_major_witness :
  Plain.index sample_2x3x4 [1; 2; 3] = Some 23.
Proof.
  refine (proj1 (index_row_major sample_2x3x4 [1; 2; 3] _ _)).
  - solve_wf.
  - solve_range.
Defined.

(** C3 (the claim fails).  The array constructed with the sizes 3 and
    6148914691236517206 has a backing store of 2 elements, and the two
    valid coordinate tuples (0, 1) and (2, 6148914691236517205) are
    mapped to the same offset 1: on this dimension vector the index
    mapping is not injective on the valid tuples. *)
Lemma index_overflow_counterexample :
  Plain.d_dimensions overflow_3xN = [3; 6148914691236517206]
  /\ length (Plain.d_data overflow_3xN) = 2%nat
  /\ in_range (Plain.d_dimensions overflow_3xN) [0; 1]
  /\ in_range (Plain.d_dimensions overflow_3xN) [2; 6148914691236517205]
  /\ Plain.index overflow_3xN [0; 1] = Some 1
  /\ Plain.index overflow_3xN [2; 6148914691236517205] = Some 1.
Proof.
  repeat split; try reflexivity; solve_range.
Qed.

(** C3 (as amended).  For a dimension vector whose product is below 2^64
    and is the length of the backing store (the class invariant), the
    index mapping restricted to the valid coordinate tuples is a
    bijection onto [0, total), total being the product of the axis
    sizes: every valid tuple has an offset below total, two valid tuples
    with the same offset are equal, and every offset below total is that
    of a valid tuple. *)
Theorem index_bijection {T : Type} (a : Plain.MultiArray T) :
  wf a ->
  prod_list (Plain.d_dimensions a) = Z.of_nat (length (Plain.d_data a))
  /\ (forall idx, in_range (Plain.d_dimensions a) idx ->
        exists o, Plain.index a idx = Some o
                  /\ 0 <= o < prod_list (Plain.d_dimensions a))
  /\ (forall idx idx',
        in_range (Plain.d_dimensions a) idx ->
        in_range (Plain.d_dimensions a) idx' ->
        Plain.index a idx = Plain.index a idx' -> idx = idx')
  /\ (forall o, 0 <= o < prod_list (Plain.d_dimensions a) ->
        exists idx, in_range (Plain.d_dimensions a) idx
                    /\ Plain.index a idx = Some o).
Proof.
  intros Hwf. pose proof Hwf as (HD & Hsz & Hlen & Hmax).
  split; [lia|]. split; [|split].
  - intros idx Hr. destruct (index_in_range a idx Hwf Hr) as [E B].
    eexists. split; [exact E | lia].
  - intros idx idx' Hr Hr' E.
    destruct (index_in_range a idx Hwf Hr) as [E1 _].
    destruct (index_in_range a idx' Hwf Hr') as [E2 _].
    rewrite E1, E2 in E. injection E as E.
    eapply offset_inj; eassumption.
  - intros o Ho.
    destruct (coords_spec (Plain.d_dimensions a) o) as [Hr Eo];
      [apply Forall_size_nonneg, Hsz | exact Ho |].
    exists (coords (Plain.d_dimensions a) o). split; [exact Hr|].
    destruct (index_in_range a _ Hwf Hr) as [E _]. rewrite E, Eo.
    reflexivity.
Qed.

Lemma index_bijection_witness :
  exists idx, in_range [2; 3; 4] idx
              /\ Plain.index sample_2x3x4 idx = Some 17.
Proof.
  refine (proj2 (proj2 (proj2 (index_bijection sample_2x3x4 _))) 17 _).
  - solve_wf.
  - cbn. lia.
Defined.

(** C10 (the claim fails).  On the 2 x 3 x 4 array, [index(2^62, 0)]
    returns 0, while the sum [2^62 * 4 + 0 * 1] is 2^64: the result is
    computed in [size_t]. *)
Lemma index_wraps_counterexample :
  Plain.index sample_2x3x4 [2 ^ 62; 0] = Some 0
  /\ trailing_offset (Plain.d_dimensions sample_2x3x4) [2 ^ 62; 0] = 2 ^ 64.
Proof.
  split; reflexivity.
Qed.

(** C10 (as amended).  [index] (and so [operator()]) takes any number
    [k] of arguments with [1 <= k <= D], without an arity check, and reads
    them as indices into the last [k] axes: the result is the sum over
    [m < k] of [j_m * product(dimensions[D-k+m+1 .. D-1])] reduced modulo
    2^64, and it is that sum itself whenever the sum is below 2^64. *)
Theorem index_trailing_axes {T : Type} (a : Plain.MultiArray T)
        (js : list Z) :
  (1 <= length js <= length (Plain.d_dimensions a))%nat ->
  Plain.index a js
  = Some (to_size_t (trailing_offset (Plain.d_dimensions a) js))
  /\ (is_size_t (trailing_offset (Plain.d_dimensions a) js) ->
      Plain.index a js = Some (trailing_offset (Plain.d_dimensions a) js)).
Proof.
  intros Hk.
  assert (Plain.index a js
          = Some (to_size_t (trailing_offset (Plain.d_dimensions a) js)))
    as E.
  { unfold Plain.index.
    rewrite trailing_offset_offset by lia.
    rewrite <- offset_cast.
    destruct js as [|h t]; simpl in Hk; [lia|].
    cbn [map indexMap_pack].
    rewrite indexMap_offset by (rewrite length_map; lia).
    rewrite length_map. reflexivity. }
  split; [exact E|].
  intros Hs. rewrite E, to_size_t_small by exact Hs. reflexivity.
Qed.

Lemma index_trailing_axes_witness :
  Plain.index sample_2x3x4 [2; 3] = Some 11.
Proof.
  refine (proj2 (index_trailing_axes sample_2x3x4 [2; 3] _) _).
  - cbn. lia.
  - unfold is_size_t, SIZE_MOD. cbn. lia.
Defined.

(** C6 (the claim fails).  On the array constructed with the sizes 3 and
    6148914691236517206, whose store has 2 elements, writing 7 at the
    valid tuple (0, 1) changes what the other valid tuple
    (2, 6148914691236517205) reads, from 0 to 7: both are mapped to
    offset 1. *)
Lemma call_assign_alias_counterexample :
  in_range (Plain.d_dimensions overflow_3xN) [0; 1]
  /\ in_range (Plain.d_dimensions overflow_3xN) [2; 6148914691236517205]
  /\ Plain.call overflow_3xN [2; 6148914691236517205] = Some 0
  /\ Plain.call_assign overflow_3xN [0; 1] 7
     = Some (Plain.mkMultiArray [0; 7] [3; 6148914691236517206])
  /\ Plain.call (Plain.mkMultiArray [0; 7] [3; 6148914691236517206])
                [2; 6148914691236517205]
     = Some 7.
Proof.
  split; [solve_range|]. split; [solve_range|].
  repeat split; reflexivity.
Qed.

(** C6 (as amended).  For an array whose axis sizes have a product below
    2^64 that is the length of the backing store (the class invariant),
    a valid coordinate tuple and a value [v]: writing [v] through
    [operator()] at the tuple succeeds and keeps the invariant, reading
    the same tuple afterwards returns [v], and reading any other valid
    tuple returns what it returned before the write. *)
Theorem call_assign_roundtrip {T : Type} (a : Plain.MultiArray T)
        (idx : list Z) (v : T) :
  wf a -> in_range (Plain.d_dimensions a) idx ->
  exists a',
    Plain.call_assign a idx v = Some a'
    /\ wf a'
    /\ Plain.d_dimensions a' = Plain.d_dimensions a
    /\ Plain.call a' idx = Some v
    /\ forall idx',
        in_range (Plain.d_dimensions a) idx' -> idx' <> idx ->
        Plain.call a' idx' = Plain.call a idx'.
Proof.
  intros Hwf Hr.
  destruct (index_in_range a idx Hwf Hr) as [E B].
  destruct (store_spec (Plain.d_data a) _ v B) as (data' & Es & Hl & Hn).
  exists (Plain.mkMultiArray data' (Plain.d_dimensions a)).
  assert (wf (Plain.mkMultiArray data' (Plain.d_dimensions a))) as Hwf'.
  { unfold wf in *. simpl. rewrite Hl. exact Hwf. }
  split; [|split; [exact Hwf'|split; [reflexivity|split]]].
  - unfold Plain.call_assign. rewrite E, Es. reflexivity.
  - destruct (index_in_range _ idx Hwf' Hr) as [E' _].
    unfold Plain.call. rewrite E'. simpl. unfold load.
    destruct (Z.leb_spec 0 (offset (Plain.d_dimensions a) idx)); [|lia].
    rewrite Hn, Nat.eqb_refl. reflexivity.
  - intros idx' Hr' Hne.
    destruct (index_in_range _ idx' Hwf' Hr') as [E' _].
    destruct (index_in_range a idx' Hwf Hr') as [E0 B0].
    unfold Plain.call. rewrite E', E0. simpl. unfold load.
    destruct (Z.leb_spec 0 (offset (Plain.d_dimensions a) idx')); [|lia].
    rewrite Hn.
    destruct (Nat.eqb_spec (Z.to_nat (offset (Plain.d_dimensions a) idx'))
                           (Z.to_nat (offset (Plain.d_dimensions a) idx)))
      as [Eo|_]; [|reflexivity].
    exfalso. apply Hne.
    eapply offset_inj; [exact Hr' | exact Hr | lia].
Qed.

Lemma call_assign_roundtrip_witness :
  exists a',
    Plain.call_assign sample_3x3 [1; 2] 7 = Some a'
    /\ Plain.call a' [1; 2] = Some 7
    /\ Plain.call a' [2; 0] = Some 16.
Proof.
  destruct (call_assign_roundtrip sample_3x3 [1; 2] 7)
    as (a' & E & _ & _ & Hsame & Hother).
  - solve_wf.
  - solve_range.
  - exists a'. split; [exact E|]. split; [exact Hsame|].
    rewrite (Hother [2; 0]).
    + reflexivity.
    + solve_range.
    + discriminate.
Defined.

(** C1 (the claim fails).  On the array constructed with the sizes 3 and
    6148914691236517206, whose store has 2 elements, the valid range
    table [{[0,1), [1,2)}] is assigned normally and changes what the
    valid tuple (2, 6148914691236517205) reads, from 0 to 9, although the
    tuple is outside the box: the tuple shares offset 1 with (0, 1). *)
Lemma assign_ranges_counterexample :
  valid_ranges (Plain.d_dimensions overflow_3xN) [(0, 1); (1, 2)]
  /\ in_range (Plain.d_dimensions overflow_3xN) [2; 6148914691236517205]
  /\ in_box [(0, 1); (1, 2)] [2; 6148914691236517205] = false
  /\ Plain.call overflow_3xN [2; 6148914691236517205] = Some 0
  /\ Plain.assign overflow_3xN [(0, 1); (1, 2)] 9
     = Some (Plain.mkMultiArray [0; 9] [3; 6148914691236517206])
  /\ Plain.call (Plain.mkMultiArray [0; 9] [3; 6148914691236517206])
                [2; 6148914691236517205]
     = Some 9.
Proof.
  split; [repeat constructor; cbn; lia|]. split; [solve_range|].
  repeat split; reflexivity.
Qed.

(** C1 (as amended).  For an array whose axis sizes have a product below
    2^64 that is the length of the backing store (the class invariant)
    and a range
    table with [0 <= begin_k <= end_k <= dimensions[k]] on every axis,
    [assign(ranges, v)] succeeds and keeps the axes and the length of the
    store; the positions of the store that hold [v] afterwards instead of
    their prior value are the offsets of the tuples inside the box
    ([begin_k <= i_k < end_k] on every axis), so that every valid
    coordinate tuple inside the box reads [v] and every other valid tuple
    reads what it read before. *)
Theorem assign_ranges_spec {T : Type} (a : Plain.MultiArray T)
        (ranges : list (Z * Z)) (v : T) :
  wf a -> valid_ranges (Plain.d_dimensions a) ranges ->
  exists a',
    Plain.assign a ranges v = Some a'
    /\ Plain.d_dimensions a' = Plain.d_dimensions a
    /\ length (Plain.d_data a') = length (Plain.d_data a)
    /\ fills v
         (fun p => exists idx,
              in_box ranges idx = true
              /\ Z.of_nat p = offset (Plain.d_dimensions a) idx)
         (Plain.d_data a) (Plain.d_data a')
    /\ forall idx,
        in_range (Plain.d_dimensions a) idx ->
        Plain.call a' idx
        = if in_box ranges idx then Some v else Plain.call a idx.
Proof.
  intros Hwf Hv.
  destruct (assign_valid ranges v a Hwf Hv) as (data' & E & F).
  pose proof F as (Hl & HA & HB & _).
  exists (Plain.mkMultiArray data' (Plain.d_dimensions a)).
  assert (wf (Plain.mkMultiArray data' (Plain.d_dimensions a))) as Hwf'.
  { unfold wf in *. simpl. rewrite Hl. exact Hwf. }
  split; [exact E|]. split; [reflexivity|]. split; [exact Hl|].
  split; [exact F|].
  intros idx Hr.
  destruct (index_in_range _ idx Hwf' Hr) as [E' _].
  destruct (index_in_range a idx Hwf Hr) as [E0 B0].
  unfold Plain.call. rewrite E', E0. simpl. unfold load.
  destruct (Z.leb_spec 0 (offset (Plain.d_dimensions a) idx)); [|lia].
  destruct (in_box ranges idx) eqn:Hbox.
  - apply HA. exists idx. split; [exact Hbox|]. lia.
  - apply HB. intros (idx2 & Hbox2 & Ho).
    assert (idx2 = idx) as ->.
    { eapply offset_inj;
        [eapply in_box_in_range; eassumption | exact Hr | lia]. }
    congruence.
Qed.

Lemma assign_ranges_spec_witness :
  exists a',
    Plain.assign sample_3x3 box_3x3 9 = Some a'
    /\ Plain.call a' [0; 1] = Some 9 /\ Plain.call a' [0; 2] = Some 9
    /\ Plain.call a' [1; 1] = Some 9 /\ Plain.call a' [1; 2] = Some 9
    /\ Plain.call a' [0; 0] = Some 10 /\ Plain.call a' [1; 0] = Some 13
    /\ Plain.call a' [2; 0] = Some 16 /\ Plain.call a' [2; 1] = Some 17
    /\ Plain.call a' [2; 2] = Some 18.
Proof.
  destruct (assign_ranges_spec sample_3x3 box_3x3 9)
    as (a' & E & _ & _ & _ & H).
  - solve_wf.
  - repeat constructor; cbn; lia.
  - exists a'. split; [exact E|].
    repeat split; (rewrite H; [reflexivity | solve_range]).
Defined.

(** C7.  For an otherwise valid range table in which some axis [k] has
    [begin_k = end_k], [assign(ranges, value)] returns normally and
    leaves the object, and so every element of its backing store, as it
    was. *)
Theorem assign_empty_range {T : Type} (a : Plain.MultiArray T)
        (ranges : list (Z * Z)) (v : T) (k : nat) :
  valid_ranges (Plain.d_dimensions a) ranges ->
  (k < length (Plain.d_dimensions a))%nat ->
  fst (nth k ranges (0, 0)) = snd (nth k ranges (0, 0)) ->
  Plain.assign a ranges v = Some a.
Proof.
  intros _ Hk He. eapply assign_empty; eassumption.
Qed.

Lemma assign_empty_range_witness :
  Plain.assign sample_3x3 [(0, 3); (2, 2)] 9 = Some sample_3x3.
Proof.
  apply (assign_empty_range sample_3x3 [(0, 3); (2, 2)] 9 1).
  - repeat constructor; cbn; lia.
  - cbn. lia.
  - reflexivity.
Defined.

(** ** Facts about the constructor *)

Lemma product_spec : forall tail head,
  product head tail = to_size_t (prod_list (head :: tail)).
Proof.
  induction tail as [|h t IH]; intros head; cbn [product].
  - simpl. rewrite to_size_t_mul_l. reflexivity.
  - rewrite IH. rewrite to_size_t_mul_l, to_size_t_mul_r. reflexivity.
Qed.

Lemma prod_list_zero l : In 0 l -> prod_list l = 0.
Proof.
  induction l as [|x l IH]; intros H; simpl in *; [contradiction|].
  destruct H as [->|H]; [reflexivity|]. fold (prod_list l).
  rewrite IH by exact H. lia.
Qed.

Lemma map_cast_id l : Forall is_size_t l -> map to_size_t l = l.
Proof.
  induction 1 as [|x l Hx _ IH]; simpl; [reflexivity|].
  rewrite IH, to_size_t_small by exact Hx. reflexivity.
Qed.

(** ** Facts about [Counted] and [Iter] *)

Section Variants.
Context {T : Type}.
Variable ranges : list (Z * Z).
Variable val : T.

Lemma indexMap_pack_range dims args o :
  indexMap_pack dims args = Some o -> is_size_t o.
Proof.
  destruct args as [|h t]; [discriminate|]. cbn [indexMap_pack].
  destruct t as [|h' t']; cbn [indexMap];
    destruct (axis_factor dims _); try discriminate.
  - intros E. injection E as <-. apply to_size_t_range.
  - destruct (indexMap dims h' t'); [|discriminate].
    intros E. injection E as <-. apply to_size_t_range.
Qed.

Lemma Counted_last_sim indices (c : Counted.MultiArray T) p :
  of_counted c = p ->
  opt_rel (fun c' p' => of_counted c' = p')
          (Counted.Assign_last ranges val indices c)
          (Plain.Assign_last ranges val indices p).
Proof.
  intros <-. unfold Counted.Assign_last, Plain.Assign_last, of_counted.
  cbn [Plain.d_dimensions Plain.d_data].
  destruct (indexMap_pack _ _) as [begin|]; [|exact I].
  destruct (fill _ _ _ _) as [data|]; [|exact I].
  reflexivity.
Qed.

Lemma Counted_assign_sim (c : Counted.MultiArray T) :
  opt_rel (fun c' p' => of_counted c' = p')
          (Counted.assign c ranges val)
          (Plain.assign (of_counted c) ranges val).
Proof.
  unfold Counted.assign, Plain.assign.
  apply Assign_levels_sim; [|reflexivity].
  intros indices s1 s2. apply Counted_last_sim.
Qed.

Lemma Counted_last_counter indices (c c' : Counted.MultiArray T) :
  Counted.Assign_last ranges val indices c = Some c' ->
  Counted.d_dimensions c' = Counted.d_dimensions c
  /\ Counted.counter c'
     = to_size_t
         (Counted.counter c
          + to_size_t
              (snd (nth (length (Counted.d_dimensions c) - 1) ranges (0, 0))
               - fst (nth (length (Counted.d_dimensions c) - 1)
                          ranges (0, 0)))).
Proof.
  unfold Counted.Assign_last.
  destruct (indexMap_pack _ _) as [begin|]; [|discriminate].
  destruct (fill _ _ _ _) as [data|]; [|discriminate].
  intros E. injection E as <-. split; reflexivity.
Qed.

Lemma Counted_levels_counter dims w :
  w = to_size_t (snd (nth (length dims - 1) ranges (0, 0))
                 - fst (nth (length dims - 1) ranges (0, 0))) ->
  forall n L indices (c c' : Counted.MultiArray T),
  Counted.d_dimensions c = dims -> is_size_t (Counted.counter c) ->
  Assign_levels (Counted.Assign_last ranges val) ranges n L indices c
  = Some c' ->
  Counted.d_dimensions c' = dims
  /\ Counted.counter c'
     = to_size_t (Counted.counter c + leaf_calls ranges n L * w).
Proof.
  intros Hw. induction n as [|n IH]; intros L indices c c' Hd Hc E;
    cbn [Assign_levels leaf_calls] in *.
  - apply Counted_last_counter in E. rewrite Hd in E.
    destruct E as [E1 E2]. split; [congruence|].
    rewrite E2, <- Hw. f_equal. lia.
  - set (K := leaf_calls ranges n (L + 1) * w).
    assert (forall vs (s s' : Counted.MultiArray T),
               Counted.d_dimensions s = dims ->
               is_size_t (Counted.counter s) ->
               for_each
                 (fun i t =>
                    Assign_levels (Counted.Assign_last ranges val) ranges n
                                  (L + 1) (indices ++ [i]) t) vs s
               = Some s' ->
               Counted.d_dimensions s' = dims
               /\ Counted.counter s'
                  = to_size_t (Counted.counter s
                               + Z.of_nat (length vs) * K)) as Hloop.
    { induction vs as [|i vs IHvs]; intros s s' Hsd Hsc Es;
        cbn [for_each] in Es.
      - injection Es as <-. split; [exact Hsd|].
        cbn [length].
        replace (Counted.counter s + Z.of_nat 0 * K)
          with (Counted.counter s) by lia.
        symmetry. apply to_size_t_small, Hsc.
      - destruct (Assign_levels _ _ _ _ _ s) as [t|] eqn:Et;
          [|discriminate].
        destruct (IH _ _ _ _ Hsd Hsc Et) as [Htd Htc].
        destruct (IHvs t s' Htd) as [Hsd' Hsc']; [|exact Es|].
        { rewrite Htc. apply to_size_t_range. }
        split; [exact Hsd'|].
        rewrite Hsc', Htc. fold K. rewrite to_size_t_add_l.
        f_equal. cbn [length]. lia. }
    destruct (Hloop _ _ _ Hd Hc E) as [H1 H2].
    split; [exact H1|]. rewrite H2. f_equal. unfold K. lia.
Qed.

Lemma length_loop_values b e :
  0 <= b <= e -> e < SIZE_MOD ->
  Z.of_nat (length (loop_values b e)) = e - b.
Proof.
  intros H He. unfold loop_values. rewrite length_map, length_seq.
  rewrite to_size_t_small by (unfold is_size_t; lia). lia.
Qed.

Lemma leaf_calls_valid dims :
  Forall is_size_t dims -> valid_ranges dims ranges ->
  forall n L,
  (L + n + 1 = length dims)%nat ->
  leaf_calls ranges n L
  * to_size_t (snd (nth (length dims - 1) ranges (0, 0))
               - fst (nth (length dims - 1) ranges (0, 0)))
  = box_size (skipn L ranges).
Proof.
  intros Hsz Hv.
  pose proof (Forall2_length Hv) as Hl.
  assert (forall L, (L < length dims)%nat ->
                    0 <= fst (nth L ranges (0, 0))
                      <= snd (nth L ranges (0, 0))
                    /\ snd (nth L ranges (0, 0)) < SIZE_MOD) as Hr.
  { intros L HL.
    pose proof (Forall2_nth _ _ _ Hv L (0, 0) 0 ltac:(lia)) as H.
    pose proof (proj1 (Forall_nth _ _) Hsz L 0 HL) as Hd.
    cbv beta in H. unfold is_size_t in Hd. lia. }
  unfold box_size.
  induction n as [|n IH]; intros L HL; cbn [leaf_calls].
  - replace L with (length dims - 1)%nat by lia.
    rewrite (skipn_nth_cons ranges (length dims - 1) (0, 0)) by lia.
    rewrite skipn_all2 by lia. cbn [map prod_list fold_right].
    destruct (Hr (length dims - 1)%nat ltac:(lia)) as [H1 H2].
    rewrite to_size_t_small by (unfold is_size_t; lia). lia.
  - rewrite (skipn_nth_cons ranges L (0, 0)) by lia.
    cbn [map prod_list fold_right].
    destruct (Hr L ltac:(lia)) as [H1 H2].
    rewrite length_loop_values by assumption.
    rewrite <- Z.mul_assoc, IH by lia.
    rewrite Nat.add_1_r. reflexivity.
Qed.

Lemma Iter_last_sim indices (i : Iter.MultiArray T) p :
  of_iter i = p /\ Z.of_nat (length (Plain.d_data p)) < SIZE_MOD ->
  opt_rel (fun i' p' => of_iter i' = p'
                        /\ Z.of_nat (length (Plain.d_data p')) < SIZE_MOD)
          (Iter.Assign_last ranges val indices i)
          (Plain.Assign_last ranges val indices p).
Proof.
  intros [<- Hlen]. unfold Iter.Assign_last, Plain.Assign_last, of_iter in *.
  cbn [Plain.d_dimensions Plain.d_data] in *.
  destruct (indexMap_pack _ _) as [begin|] eqn:Eb; [|exact I].
  apply indexMap_pack_range in Eb.
  set (w := to_size_t
              (snd (nth (length (Iter.d_dimensions i) - 1) ranges (0, 0))
               - fst (nth (length (Iter.d_dimensions i) - 1) ranges (0, 0)))).
  pose proof (to_size_t_range
                (snd (nth (length (Iter.d_dimensions i) - 1) ranges (0, 0))
                 - fst (nth (length (Iter.d_dimensions i) - 1)
                            ranges (0, 0)))) as Hw.
  fold w in Hw. unfold is_size_t in *. cbn [Z.add].
  destruct (Z.ltb_spec (begin + w) SIZE_MOD) as [Hsmall|Hbig].
  - rewrite (to_size_t_small (begin + w)) by (unfold is_size_t; lia).
    destruct (fill _ _ _ _) as [data|] eqn:Ef; [|exact I].
    cbn. split; [reflexivity|].
    rewrite (fill_length _ _ _ _ _ Ef). exact Hlen.
  - assert (to_size_t (begin + w) = begin + w - SIZE_MOD) as ->.
    { unfold to_size_t. symmetry.
      apply (Z.mod_unique_pos _ _ 1). lia. lia. }
    unfold fill.
    destruct (Z.eqb_spec begin (begin + w)); [lia|].
    destruct (Z.eqb_spec begin (begin + w - SIZE_MOD)); [lia|].
    destruct (Z.ltb_spec begin (begin + w - SIZE_MOD)); [lia|].
    destruct (Z.leb_spec (begin + w) (Z.of_nat (length (Iter.d_data i))));
      [lia|].
    rewrite !andb_false_r. exact I.
Qed.

Lemma Iter_assign_sim (i : Iter.MultiArray T) :
  Z.of_nat (length (Iter.d_data i)) < SIZE_MOD ->
  opt_rel (fun i' p' => of_iter i' = p'
                        /\ Z.of_nat (length (Plain.d_data p')) < SIZE_MOD)
          (Iter.assign i ranges val)
          (Plain.assign (of_iter i) ranges val).
Proof.
  intros Hlen. unfold Iter.assign, Plain.assign.
  apply Assign_levels_sim; [|split; [reflexivity | exact Hlen]].
  intros indices s1 s2. apply Iter_last_sim.
Qed.

End Variants.

(** C5 (the claim fails).  The range table [{[0,1), [1,5)}] is invalid
    for a 3 x 3 array (5 exceeds the size of the last axis), and so is
    [{[5,5), [0,3)}].  Neither call is rejected: both complete normally.
    The first overwrites the positions 1 to 4 of the store, that is the
    coordinates (0,1), (0,2) and also (1,0), (1,1); the second writes
    nothing. *)
Lemma assign_no_validation_counterexample :
  ~ valid_ranges (Plain.d_dimensions sample_3x3) [(0, 1); (1, 5)]
  /\ Plain.assign sample_3x3 [(0, 1); (1, 5)] 9
     = Some (Plain.mkMultiArray [10; 9; 9; 9; 9; 15; 16; 17; 18] [3; 3])
  /\ ~ valid_ranges (Plain.d_dimensions sample_3x3) [(5, 5); (0, 3)]
  /\ Plain.assign sample_3x3 [(5, 5); (0, 3)] 9 = Some sample_3x3.
Proof.
  split; [|split; [reflexivity|split; [|reflexivity]]].
  - intros H. inversion H as [|r d rs ds _ H']; subst.
    inversion H' as [|r' d' rs' ds' Hr _]; subst. simpl in Hr. lia.
  - intros H. inversion H as [|r d rs ds Hr _]; subst. simpl in Hr. lia.
Qed.

(** C5 (as amended).  [assign(ranges, value)] does not validate the range
    table and has no way to report a usage error; an invalid table is run
    as it is.  (1) A table with [begin_k = end_k] on some axis is a silent
    no-op whatever its other entries are.  (2) A table that is valid on
    the outer axes, has [begin <= end] on the last axis, and whose runs
    all end inside the backing store completes normally, also when
    [end] exceeds the size of the last axis: it overwrites the positions
    [offset(i_0 .. i_{D-1})] of the tuples inside the table and nothing
    else. *)
Theorem assign_unchecked {T : Type} (a : Plain.MultiArray T)
        (ranges : list (Z * Z)) (v : T) :
  (forall k,
      (k < length (Plain.d_dimensions a))%nat ->
      fst (nth k ranges (0, 0)) = snd (nth k ranges (0, 0)) ->
      Plain.assign a ranges v = Some a)
  /\ (wf a ->
      length ranges = length (Plain.d_dimensions a) ->
      valid_ranges
        (firstn (length (Plain.d_dimensions a) - 1) (Plain.d_dimensions a))
        (firstn (length (Plain.d_dimensions a) - 1) ranges) ->
      0 <= fst (nth (length (Plain.d_dimensions a) - 1) ranges (0, 0))
        <= snd (nth (length (Plain.d_dimensions a) - 1) ranges (0, 0)) ->
      (forall pre,
          in_box (firstn (length (Plain.d_dimensions a) - 1) ranges) pre
          = true ->
          offset (Plain.d_dimensions a)
                 (pre ++ [snd (nth (length (Plain.d_dimensions a) - 1)
                                   ranges (0, 0))])
          <= prod_list (Plain.d_dimensions a)) ->
      exists data',
        Plain.assign a ranges v
        = Some (Plain.mkMultiArray data' (Plain.d_dimensions a))
        /\ fills v
             (fun p => exists idx,
                  in_box ranges idx = true
                  /\ Z.of_nat p = offset (Plain.d_dimensions a) idx)
             (Plain.d_data a) data').
Proof.
  split.
  - intros k Hk He. eapply assign_empty; eassumption.
  - intros Hwf Hl Hout Hlast Hfit. apply assign_runs; assumption.
Qed.

Lemma assign_unchecked_witness :
  Plain.assign sample_3x3 [(5, 5); (0, 3)] 9 = Some sample_3x3
  /\ exists data',
      Plain.assign sample_3x3 [(0, 1); (1, 5)] 9
      = Some (Plain.mkMultiArray data' [3; 3])
      /\ nth_error data' 4 = Some 9.
Proof.
  split.
  - apply (proj1 (assign_unchecked sample_3x3 [(5, 5); (0, 3)] 9) 0%nat).
    + cbn. lia.
    + reflexivity.
  - destruct (proj2 (assign_unchecked sample_3x3 [(0, 1); (1, 5)] 9))
      as (data' & E & _ & Hsel & _).
    + solve_wf.
    + reflexivity.
    + repeat constructor; cbn; lia.
    + cbn. lia.
    + intros [|x [|y pre]] H; cbn in H; try discriminate;
        try (rewrite andb_false_r in H; discriminate).
      destruct (Z.leb_spec 0 x); [|discriminate].
      destruct (Z.ltb_spec x 1); [|discriminate].
      cbn. lia.
    + exists data'. split; [exact E|].
      apply Hsel. exists [0; 4]. split; reflexivity.
Defined.

(** C8 (the claim fails).  Constructed with the sizes 2^32 and 2^32, the
    array records both sizes and gets an empty backing store, not one of
    2^32 * 2^32 elements: [product] multiplies in [size_t]. *)
Lemma ctor_overflow_counterexample :
  Plain.d_dimensions (Plain.MultiArray_ctor 0 (2 ^ 32) [2 ^ 32])
  = [2 ^ 32; 2 ^ 32]
  /\ Plain.d_data (Plain.MultiArray_ctor 0 (2 ^ 32) [2 ^ 32]) = []
  /\ Z.of_nat (length (Plain.d_data
                         (Plain.MultiArray_ctor 0 (2 ^ 32) [2 ^ 32])))
     <> 2 ^ 32 * 2 ^ 32.
Proof.
  split; [reflexivity|]. split; [reflexivity|]. discriminate.
Qed.

(** C8 (as amended).  A construction with the sizes [s_0 .. s_{D-1}],
    [D >= 1], creates a backing store of [(s_0 * ... * s_{D-1}) mod 2^64]
    default elements (none when a size is 0).  When the sizes are
    [size_t] values whose product is below 2^64, the store has exactly
    [s_0 * ... * s_{D-1}] elements and the class invariant holds.  The
    element write and both overloads of [assign] keep the length of the
    store and the axis sizes, hence the invariant ([index], [dim] and
    [size] do not change the object). *)
Theorem ctor_store_size {T : Type} (default : T) (head : Z)
        (tail : list Z) :
  Plain.d_data (Plain.MultiArray_ctor default head tail)
  = repeat default (Z.to_nat (to_size_t (prod_list (head :: tail))))
  /\ Z.of_nat (length (Plain.d_data (Plain.MultiArray_ctor default head tail)))
     = to_size_t (prod_list (head :: tail))
  /\ (In 0 (head :: tail) ->
      Plain.d_data (Plain.MultiArray_ctor default head tail) = [])
  /\ (Forall is_size_t (head :: tail) ->
      prod_list (head :: tail) < SIZE_MOD ->
      Plain.d_dimensions (Plain.MultiArray_ctor default head tail)
      = head :: tail
      /\ Z.of_nat (length (Plain.d_data
                             (Plain.MultiArray_ctor default head tail)))
         = prod_list (head :: tail)
      /\ wf (Plain.MultiArray_ctor default head tail))
  /\ (forall (s s' : Plain.MultiArray T) idx v,
         Plain.call_assign s idx v = Some s' ->
         length (Plain.d_data s') = length (Plain.d_data s)
         /\ Plain.d_dimensions s' = Plain.d_dimensions s)
  /\ (forall (s : Plain.MultiArray T) v,
         length (Plain.d_data (Plain.assign_all s v))
         = length (Plain.d_data s)
         /\ Plain.d_dimensions (Plain.assign_all s v) = Plain.d_dimensions s)
  /\ (forall (s s' : Plain.MultiArray T) ranges v,
         Plain.assign s ranges v = Some s' ->
         length (Plain.d_data s') = length (Plain.d_data s)
         /\ Plain.d_dimensions s' = Plain.d_dimensions s).
Proof.
  assert (Z.of_nat (length (Plain.d_data
                              (Plain.MultiArray_ctor default head tail)))
          = to_size_t (prod_list (head :: tail))) as Hlen.
  { unfold Plain.MultiArray_ctor. cbn [Plain.d_data].
    rewrite repeat_length, product_spec.
    pose proof (to_size_t_range (prod_list (head :: tail))) as H.
    unfold is_size_t in H. lia. }
  split; [|split; [exact Hlen|split; [|split; [|split; [|split]]]]].
  - unfold Plain.MultiArray_ctor. cbn [Plain.d_data].
    rewrite product_spec. reflexivity.
  - intros H0. unfold Plain.MultiArray_ctor. cbn [Plain.d_data].
    rewrite product_spec, (prod_list_zero _ H0). reflexivity.
  - intros Hsz Hmax.
    assert (to_size_t (prod_list (head :: tail)) = prod_list (head :: tail))
      as Hsmall.
    { apply to_size_t_small. split; [|exact Hmax].
      apply prod_list_nonneg, Forall_size_nonneg, Hsz. }
    assert (Plain.d_dimensions (Plain.MultiArray_ctor default head tail)
            = head :: tail) as Hdims.
    { unfold Plain.MultiArray_ctor. cbn [Plain.d_dimensions].
      apply map_cast_id, Hsz. }
    split; [exact Hdims|]. split; [congruence|].
    unfold wf, well_formed. rewrite Hdims, Hlen, Hsmall.
    repeat split; try assumption. simpl. lia.
  - intros s s' idx v. unfold Plain.call_assign.
    destruct (Plain.index s idx); [|discriminate].
    destruct (store _ _ _) as [data|] eqn:Es; [|discriminate].
    intros E. injection E as <-. split; [|reflexivity].
    eapply store_length, Es.
  - intros s v. unfold Plain.assign_all. cbn.
    rewrite length_map. split; reflexivity.
  - intros s s' ranges v. apply assign_keeps.
Qed.

Lemma ctor_store_size_witness :
  Z.of_nat (length (Plain.d_data sample_2x3x4)) = 24 /\ wf sample_2x3x4.
Proof.
  destruct (proj1 (proj2 (proj2 (proj2 (ctor_store_size 0 2 [3; 4])))))
    as (_ & Hl & Hwf).
  - repeat constructor; unfold is_size_t, SIZE_MOD; cbn; lia.
  - unfold SIZE_MOD. cbn. lia.
  - split; [exact Hl | exact Hwf].
Defined.

Lemma box_size_nonneg dims ranges :
  valid_ranges dims ranges -> 0 <= box_size ranges.
Proof.
  unfold box_size. induction 1 as [|r d rs ds Hr _ IH]; simpl; [lia|].
  fold (prod_list (map (fun r => snd r - fst r) rs)). nia.
Qed.

(** C9 (the claim fails).  With the public counter at 2^64 - 1, the valid
    assignment of 4 elements on the 3 x 3 array leaves the counter at 3,
    not at 2^64 + 3: the field is a [size_t].  And on the array
    constructed with the sizes 3 and 6148914691236517206, whose store has
    2 elements, the valid table [{[0,1), [0,3)}] makes the fill run past
    the store. *)
Lemma counter_counts_counterexample :
  valid_ranges (Counted.d_dimensions counted_wrap_3x3) box_3x3
  /\ Counted.assign counted_wrap_3x3 box_3x3 9
     = Some (Counted.mkMultiArray [10; 9; 9; 13; 9; 9; 16; 17; 18] [3; 3] 3)
  /\ Counted.counter counted_wrap_3x3 + box_size box_3x3 = 2 ^ 64 + 3
  /\ valid_ranges (Counted.d_dimensions counted_overflow_3xN)
                  [(0, 1); (0, 3)]
  /\ Counted.assign counted_overflow_3xN [(0, 1); (0, 3)] 9 = None.
Proof.
  split; [repeat constructor; cbn; lia|].
  split; [reflexivity|]. split; [reflexivity|].
  split; [repeat constructor; cbn; lia | reflexivity].
Qed.

(** C9 (as amended).  In the variant with the debug counter, for an array
    whose axis sizes have a product below 2^64 that is the length of the
    backing store (the class invariant) and a valid range table,
    [assign(ranges, value)] succeeds and adds to [counter] the product
    over the axes of [end_k - begin_k], the number of elements touched:
    the addition is that of the [size_t] field, and the new value is the
    old one plus the product whenever that is below 2^64.  The element
    write and [assign(value)] leave [counter] unchanged and the
    constructor sets it to 0; the other members do not change the
    object. *)
Theorem counter_counts {T : Type} (a : Counted.MultiArray T)
        (ranges : list (Z * Z)) (v : T) :
  wf (of_counted a) -> is_size_t (Counted.counter a) ->
  valid_ranges (Counted.d_dimensions a) ranges ->
  (exists a',
      Counted.assign a ranges v = Some a'
      /\ Counted.counter a'
         = to_size_t (Counted.counter a + box_size ranges)
      /\ (Counted.counter a + box_size ranges < SIZE_MOD ->
          Counted.counter a' = Counted.counter a + box_size ranges))
  /\ (forall idx w a',
         Counted.call_assign a idx w = Some a' ->
         Counted.counter a' = Counted.counter a)
  /\ Counted.counter (Counted.assign_all a v) = Counted.counter a
  /\ (forall default head tail,
         Counted.counter (Counted.MultiArray_ctor (T := T) default head tail)
         = 0).
Proof.
  intros Hwf Hc Hv. split; [|split; [|split]].
  - pose proof (Counted_assign_sim ranges v a) as Hsim.
    destruct (assign_valid ranges v (of_counted a) Hwf Hv) as (data' & E & _).
    rewrite E in Hsim.
    destruct (Counted.assign a ranges v) as [a'|] eqn:Ea;
      [|contradiction].
    exists a'. split; [reflexivity|].
    unfold Counted.assign in Ea.
    destruct (Counted_levels_counter ranges v (Counted.d_dimensions a) _
                eq_refl _ _ _ _ _ eq_refl Hc Ea) as [_ Hcount].
    destruct Hwf as (HD & Hsz & _).
    cbn [of_counted Plain.d_dimensions] in HD, Hsz.
    rewrite (leaf_calls_valid ranges (Counted.d_dimensions a) Hsz Hv)
      in Hcount by lia.
    cbn [skipn] in Hcount.
    split; [exact Hcount|].
    intros Hsmall. rewrite Hcount. apply to_size_t_small.
    pose proof (box_size_nonneg _ _ Hv). unfold is_size_t in *. lia.
  - intros idx w a'. unfold Counted.call_assign.
    destruct (Counted.index a idx); [|discriminate].
    destruct (store _ _ _); [|discriminate].
    intros E. injection E as <-. reflexivity.
  - reflexivity.
  - reflexivity.
Qed.

Lemma counter_counts_witness :
  exists a',
    Counted.assign counted_3x3 box_3x3 9 = Some a'
    /\ Counted.counter a' = 4.
Proof.
  destruct (proj1 (counter_counts counted_3x3 box_3x3 9
                     ltac:(solve_wf)
                     ltac:(unfold is_size_t, SIZE_MOD; cbn; lia)
                     ltac:(repeat constructor; cbn; lia)))
    as (a' & E & _ & Hexact).
  exists a'. split; [exact E|].
  rewrite Hexact; [reflexivity|].
  unfold SIZE_MOD. cbn. lia.
Defined.



(** * Further properties of the code *)

(** ** Uniform fill, introspection and the factory *)

(** X1.  [assign(val)] keeps the axes and the length of the store and
    leaves [val] in every element; on an array that satisfies the class
    invariant every valid coordinate tuple then reads [val]. *)
Theorem assign_all_reads {T : Type} (a : Plain.MultiArray T) (v : T) :
  Plain.d_dimensions (Plain.assign_all a v) = Plain.d_dimensions a
  /\ length (Plain.d_data (Plain.assign_all a v)) = length (Plain.d_data a)
  /\ Forall (fun x => x = v) (Plain.d_data (Plain.assign_all a v))
  /\ (wf a ->
      forall idx, in_range (Plain.d_dimensions a) idx ->
                  Plain.call (Plain.assign_all a v) idx = Some v).
Proof.
  split; [reflexivity|]. split; [apply length_map|]. split.
  - unfold Plain.assign_all. cbn [Plain.d_data].
    apply Forall_map, Forall_forall. reflexivity.
  - intros Hwf idx Hr.
    assert (wf (Plain.assign_all a v)) as Hwf'.
    { unfold wf, Plain.assign_all in *. cbn [Plain.d_data Plain.d_dimensions].
      rewrite length_map. exact Hwf. }
    destruct (index_in_range _ idx Hwf' Hr) as [E B].
    unfold Plain.call. rewrite E. unfold load.
    cbn [Plain.assign_all Plain.d_data Plain.d_dimensions] in *.
    destruct (Z.leb_spec 0 (offset (Plain.d_dimensions a) idx)); [|lia].
    rewrite nth_error_map.
    destruct (nth_error (Plain.d_data a)
                        (Z.to_nat (offset (Plain.d_dimensions a) idx)))
      eqn:En; [reflexivity|].
    apply nth_error_None in En. rewrite length_map in B. lia.
Qed.

Lemma assign_all_reads_witness :
  Plain.call (Plain.assign_all sample_3x3 7) [2; 1] = Some 7.
Proof.
  refine (proj2 (proj2 (proj2 (assign_all_reads sample_3x3 7)))
                _ [2; 1] _).
  - solve_wf.
  - solve_range.
Defined.

(** X2.  For an array made by the factory (or the constructor) from
    [1 + length tail] sizes, [dim()] is the number of sizes, [size(k)] is
    the [k]-th size as converted to [size_t] for every axis [k] below
    [dim()], and [size(k)] for any other [size_t] value [k] reads
    [d_dimensions] outside the array. *)
Theorem size_of_constructed {T : Type} (default : T) (head : Z)
        (tail : list Z) (k : Z) :
  Plain.dim (makeMultiArray default head tail)
  = Z.of_nat (length (head :: tail))
  /\ (0 <= k < Z.of_nat (length (head :: tail)) ->
      k < SIZE_MOD ->
      Plain.size (makeMultiArray default head tail) k
      = Some (to_size_t (nth (Z.to_nat k) (head :: tail) 0)))
  /\ (Z.of_nat (length (head :: tail)) <= k < SIZE_MOD ->
      Plain.size (makeMultiArray default head tail) k = None).
Proof.
  unfold makeMultiArray, Plain.dim, Plain.size, Plain.MultiArray_ctor.
  cbn [Plain.d_dimensions]. split; [|split].
  - rewrite length_map. reflexivity.
  - intros Hk Hmax. rewrite to_size_t_small by (unfold is_size_t; lia).
    unfold load. destruct (Z.leb_spec 0 k); [|lia].
    rewrite nth_error_map.
    rewrite (nth_error_nth' (head :: tail) 0) by lia. reflexivity.
  - intros Hk. rewrite to_size_t_small by (unfold is_size_t; lia).
    unfold load. destruct (Z.leb_spec 0 k); [|reflexivity].
    apply nth_error_None. rewrite length_map. lia.
Qed.

Lemma size_of_constructed_witness :
  Plain.size (makeMultiArray 0 2 [3; 4]) 1 = Some 3
  /\ Plain.size (makeMultiArray 0 2 [3; 4]) 3 = None.
Proof.
  split.
  - refine (proj1 (proj2 (size_of_constructed 0 2 [3; 4] 1)) _ _).
    + cbn. lia.
    + unfold SIZE_MOD. cbn. lia.
  - refine (proj2 (proj2 (size_of_constructed 0 2 [3; 4] 3)) _).
    unfold SIZE_MOD. cbn. lia.
Defined.

(** ** Steps and arities of the index mapping *)

Lemma stride_cons d ds k : stride (d :: ds) (S k) = stride ds k.
Proof. reflexivity. Qed.

Lemma offset_bump dims : forall k idx,
  (k < length idx)%nat -> length idx = length dims ->
  offset dims (bump k idx) = offset dims idx + stride dims k.
Proof.
  induction dims as [|d ds IH]; intros k [|i idx] Hk Hl;
    cbn [length] in Hk, Hl; try lia.
  destruct k as [|k]; cbn [bump offset].
  - unfold stride. cbn [skipn]. lia.
  - rewrite stride_cons, IH by lia. lia.
Qed.

(** X3.  Row-major order: on an array that satisfies the class invariant,
    incrementing the index of axis [k] of a valid coordinate tuple, the
    result being valid too, raises the offset returned by [index] by the
    product of the sizes of the axes after [k]; for the last axis that
    is 1. *)
Theorem index_step {T : Type} (a : Plain.MultiArray T) (idx : list Z)
        (k : nat) :
  wf a -> (k < length (Plain.d_dimensions a))%nat ->
  in_range (Plain.d_dimensions a) idx ->
  in_range (Plain.d_dimensions a) (bump k idx) ->
  exists o,
    Plain.index a idx = Some o
    /\ Plain.index a (bump k idx)
       = Some (o + prod_list (skipn (S k) (Plain.d_dimensions a)))
    /\ (k = (length (Plain.d_dimensions a) - 1)%nat ->
        Plain.index a (bump k idx) = Some (o + 1)).
Proof.
  intros Hwf Hk Hr Hr'.
  destruct (index_in_range a idx Hwf Hr) as [E _].
  destruct (index_in_range a _ Hwf Hr') as [E' _].
  pose proof (in_range_length _ _ Hr) as Hl.
  exists (offset (Plain.d_dimensions a) idx).
  split; [exact E|].
  rewrite E', offset_bump by lia. unfold stride.
  split; [reflexivity|].
  intros ->. rewrite skipn_all2 by lia. reflexivity.
Qed.

Lemma index_step_witness :
  Plain.index sample_2x3x4 [1; 1; 2] = Some 18
  /\ Plain.index sample_2x3x4 [1; 2; 2] = Some 22.
Proof.
  destruct (index_step sample_2x3x4 [1; 1; 2] 1) as (o & E & E' & _).
  - solve_wf.
  - cbn. lia.
  - solve_range.
  - solve_range.
  - split; [reflexivity|].
    assert (o = 18) as -> by (cbn in E; congruence). exact E'.
Defined.

(** X4.  The arity of [index] is not checked beyond [D]: with [D + 1]
    arguments the first one is multiplied by the product of all axis
    sizes and added to the offset of the other [D], in [size_t]; with
    more than [D + 1] arguments the factor loop starts below index 0 and
    reads [d_dimensions] outside the array. *)
Theorem index_excess_arguments {T : Type} (a : Plain.MultiArray T)
        (head : Z) (tail : list Z) :
  (1 <= length (Plain.d_dimensions a))%nat ->
  (length tail = length (Plain.d_dimensions a) ->
   Plain.index a (head :: tail)
   = Some (to_size_t (head * prod_list (Plain.d_dimensions a)
                      + offset (Plain.d_dimensions a) tail)))
  /\ ((length (Plain.d_dimensions a) < length tail)%nat ->
      Plain.index a (head :: tail) = None).
Proof.
  intros HD. unfold Plain.index. cbn [map indexMap_pack]. split.
  - intros Hl.
    pose proof (indexMap_pack_full (Plain.d_dimensions a)
                  (map to_size_t tail) HD) as Hrest.
    rewrite length_map in Hrest. specialize (Hrest Hl).
    destruct (axis_factor_spec (Plain.d_dimensions a) (length tail))
      as (fac & Ef & Hfac); [lia|].
    rewrite Hl, Nat.sub_diag in Hfac. cbn [skipn] in Hfac.
    destruct tail as [|h t]; [simpl in Hl; lia|].
    cbn [map indexMap_pack] in Hrest. cbn [map]. cbn [indexMap].
    replace (length (to_size_t h :: map to_size_t t))
      with (length (h :: t))
      by (cbn [length]; rewrite length_map; reflexivity).
    rewrite Ef, Hrest.
    f_equal. rewrite to_size_t_add_r.
    apply to_size_t_congr_add.
    + rewrite to_size_t_mul_l. apply to_size_t_congr_mul. exact Hfac.
    + apply (offset_cast (Plain.d_dimensions a) (h :: t)).
  - intros Hl. destruct tail as [|h t]; [simpl in Hl; lia|].
    cbn [map]. cbn [indexMap]. unfold axis_factor.
    replace (length (to_size_t h :: map to_size_t t))
      with (length (h :: t))
      by (cbn [length]; rewrite length_map; reflexivity).
    destruct (Nat.leb_spec (length (h :: t))
                           (length (Plain.d_dimensions a))); [lia|].
    reflexivity.
Qed.

Lemma index_excess_arguments_witness :
  Plain.index sample_3x3 [2; 1; 2] = Some 23
  /\ Plain.index sample_3x3 [1; 2; 1; 2] = None.
Proof.
  split.
  - refine (proj1 (index_excess_arguments sample_3x3 2 [1; 2] _) _).
    + cbn. lia.
    + reflexivity.
  - refine (proj2 (index_excess_arguments sample_3x3 1 [2; 1; 2] _) _).
    + cbn. lia.
    + cbn. lia.
Defined.

(** ** Unchecked element access *)

Lemma store_inv {T : Type} (data data' : list T) (i : Z) (v : T) :
  store data i v = Some data' ->
  0 <= i < Z.of_nat (length data)
  /\ length data' = length data
  /\ forall p, nth_error data' p
               = if (p =? Z.to_nat i)%nat then Some v else nth_error data p.
Proof.
  intros E.
  assert (0 <= i < Z.of_nat (length data)) as H.
  { unfold store in E.
    destruct (Z.leb_spec 0 i), (Z.ltb_spec i (Z.of_nat (length data)));
      cbn [andb] in E; try discriminate; lia. }
  destruct (store_spec data i v H) as (d & E' & L & Hn).
  rewrite E in E'. injection E' as ->. auto.
Qed.

Lemma index_full_arity {T : Type} (a : Plain.MultiArray T) idx :
  (1 <= length (Plain.d_dimensions a))%nat ->
  length idx = length (Plain.d_dimensions a) ->
  Plain.index a idx
  = Some (to_size_t (offset (Plain.d_dimensions a) idx)).
Proof.
  intros HD Hl. unfold Plain.index.
  rewrite indexMap_pack_full by (rewrite ?length_map; lia).
  rewrite offset_cast. reflexivity.
Qed.

(** X5.  Element access checks no bounds: a call of [operator()] with
    [D] indices reaches the store only through the row-major offset of
    the indices, reduced modulo 2^64.  Two index tuples with the same
    reduced offset, in range or not, therefore read the same element, and
    a write through one of them is read back through the other. *)
Theorem unchecked_alias {T : Type} (a : Plain.MultiArray T)
        (idx idx' : list Z) :
  (1 <= length (Plain.d_dimensions a))%nat ->
  length idx = length (Plain.d_dimensions a) ->
  length idx' = length (Plain.d_dimensions a) ->
  to_size_t (offset (Plain.d_dimensions a) idx)
  = to_size_t (offset (Plain.d_dimensions a) idx') ->
  Plain.call a idx = Plain.call a idx'
  /\ forall v a', Plain.call_assign a idx v = Some a' ->
                  Plain.call a' idx' = Some v.
Proof.
  intros HD Hl Hl' Ho.
  pose proof (index_full_arity a idx HD Hl) as E.
  pose proof (index_full_arity a idx' HD Hl') as E'.
  split.
  - unfold Plain.call. rewrite E, E', Ho. reflexivity.
  - intros v a'. unfold Plain.call_assign. rewrite E.
    destruct (store _ _ _) as [data'|] eqn:Es; [|discriminate].
    intros Ea. injection Ea as <-.
    destruct (store_inv _ _ _ _ Es) as (Hb & _ & Hn).
    unfold Plain.call.
    rewrite (index_full_arity _ idx') by (cbn; assumption).
    cbn [Plain.d_data Plain.d_dimensions]. rewrite <- Ho. unfold load.
    destruct (Z.leb_spec 0 (to_size_t (offset (Plain.d_dimensions a) idx)));
      [|lia].
    rewrite Hn, Nat.eqb_refl. reflexivity.
Qed.

Lemma unchecked_alias_witness :
  Plain.call sample_3x3 [0; 5] = Plain.call sample_3x3 [1; 2].
Proof.
  refine (proj1 (unchecked_alias sample_3x3 [0; 5] [1; 2] _ _ _ _)).
  - cbn. lia.
  - reflexivity.
  - reflexivity.
  - reflexivity.
Defined.

(** ** One axis *)

(** X6.  With one axis the range assignment is a single
    [std::fill] over the positions [begin .. end) of the store, with no
    check of the bounds: it is undefined when [end < begin] and when a
    non-empty range ends past the store, and otherwise it replaces
    exactly the elements at the positions [begin .. end). *)
Theorem assign_one_axis {T : Type} (a : Plain.MultiArray T)
        (n b e : Z) (v : T) :
  Plain.d_dimensions a = [n] -> is_size_t b -> is_size_t e ->
  Plain.assign a [(b, e)] v
  = match fill (Plain.d_data a) b e v with
    | Some data => Some (Plain.mkMultiArray data [n])
    | None => None
    end
  /\ (e < b -> Plain.assign a [(b, e)] v = None)
  /\ (b < e -> Z.of_nat (length (Plain.d_data a)) < e ->
      Plain.assign a [(b, e)] v = None)
  /\ (b <= e <= Z.of_nat (length (Plain.d_data a)) ->
      Plain.assign a [(b, e)] v
      = Some (Plain.mkMultiArray
                (firstn (Z.to_nat b) (Plain.d_data a)
                   ++ repeat v (Z.to_nat (e - b))
                   ++ skipn (Z.to_nat e) (Plain.d_data a))
                [n])).
Proof.
  intros Hd Hb He.
  assert (Plain.assign a [(b, e)] v
          = match fill (Plain.d_data a) b e v with
            | Some data => Some (Plain.mkMultiArray data [n])
            | None => None
            end) as E.
  { destruct a as [data dims]. cbn [Plain.d_dimensions Plain.d_data] in *.
    subst dims. unfold Plain.assign, Plain.Assign_last, axis_factor.
    cbn -[to_size_t fill Z.mul Z.add Z.sub].
    rewrite Z.mul_1_r, Z.add_0_r, (to_size_t_small b) by exact Hb.
    rewrite to_size_t_add_r.
    replace (b + (e - b)) with e by lia.
    rewrite (to_size_t_small e) by exact He. reflexivity. }
  split; [exact E|]. unfold is_size_t in *. split; [|split].
  - intros H. rewrite E. unfold fill.
    destruct (Z.eqb_spec b e); [lia|].
    destruct (Z.ltb_spec b e); [lia|].
    rewrite andb_false_r. reflexivity.
  - intros H1 H2. rewrite E. unfold fill.
    destruct (Z.eqb_spec b e); [lia|].
    destruct (Z.leb_spec e (Z.of_nat (length (Plain.d_data a)))); [lia|].
    rewrite andb_false_r. reflexivity.
  - intros H. rewrite E. unfold fill.
    destruct (Z.eqb_spec b e) as [->|Hne].
    + rewrite Z.sub_diag. cbn [Z.to_nat repeat app].
      rewrite firstn_skipn. reflexivity.
    + destruct (Z.leb_spec 0 b); [|lia].
      destruct (Z.ltb_spec b e); [|lia].
      destruct (Z.leb_spec e (Z.of_nat (length (Plain.d_data a)))); [|lia].
      reflexivity.
Qed.

Lemma assign_one_axis_witness :
  Plain.assign sample_10 [(2, 7)] 5
  = Some (Plain.mkMultiArray [0; 1; 5; 5; 5; 5; 5; 7; 8; 9] [10])
  /\ Plain.assign sample_10 [(7, 2)] 5 = None
  /\ Plain.assign sample_10 [(8, 11)] 5 = None.
Proof.
  assert (forall x, 0 <= x < 100 -> is_size_t x) as Hs.
  { intros x Hx. unfold is_size_t, SIZE_MOD. cbn. lia. }
  split; [|split].
  - refine (proj2 (proj2 (proj2
              (assign_one_axis sample_10 10 2 7 5 eq_refl _ _))) _).
    + apply Hs. lia.
    + apply Hs. lia.
    + cbn. lia.
  - refine (proj1 (proj2
              (assign_one_axis sample_10 10 7 2 5 eq_refl _ _)) _).
    + apply Hs. lia.
    + apply Hs. lia.
    + lia.
  - refine (proj1 (proj2 (proj2
              (assign_one_axis sample_10 10 8 11 5 eq_refl _ _))) _ _).
    + apply Hs. lia.
    + apply Hs. lia.
    + lia.
    + cbn. lia.
Defined.

(** ** The store after a range assignment, and how assignments compose *)

Lemma sel_coords dims ranges p :
  Forall is_size_t dims -> valid_ranges dims ranges ->
  (exists idx, in_box ranges idx = true
               /\ Z.of_nat p = offset dims idx)
  <-> (Z.of_nat p < prod_list dims
       /\ in_box ranges (coords dims (Z.of_nat p)) = true).
Proof.
  intros Hsz Hv. split.
  - intros (idx & Hb & Hp).
    pose proof (in_box_in_range _ _ Hv _ Hb) as Hr.
    pose proof (offset_bounds _ _ Hr) as Ho.
    split; [lia|].
    destruct (coords_spec dims (Z.of_nat p)) as [Hc Ec];
      [apply Forall_size_nonneg, Hsz | lia |].
    replace (coords dims (Z.of_nat p)) with idx; [exact Hb|].
    eapply offset_inj; [exact Hr | exact Hc | lia].
  - intros [Hp Hb].
    destruct (coords_spec dims (Z.of_nat p)) as [Hc Ec];
      [apply Forall_size_nonneg, Hsz | lia |].
    exists (coords dims (Z.of_nat p)). split; [exact Hb | lia].
Qed.

Lemma assign_valid_store {T : Type} ranges (v : T) (a : Plain.MultiArray T) :
  wf a -> valid_ranges (Plain.d_dimensions a) ranges ->
  exists data',
    Plain.assign a ranges v
    = Some (Plain.mkMultiArray data' (Plain.d_dimensions a))
    /\ length data' = length (Plain.d_data a)
    /\ forall p,
        (p < length (Plain.d_data a))%nat ->
        nth_error data' p
        = if in_box ranges (coords (Plain.d_dimensions a) (Z.of_nat p))
          then Some v else nth_error (Plain.d_data a) p.
Proof.
  intros Hwf Hv.
  destruct (assign_valid ranges v a Hwf Hv) as (data' & E & Hl & HA & HB & _).
  destruct Hwf as (HD & Hsz & Hlen & Hmax).
  exists data'. split; [exact E|]. split; [exact Hl|].
  intros p Hp.
  pose proof (sel_coords _ _ p Hsz Hv) as Hsel.
  destruct (in_box ranges (coords (Plain.d_dimensions a) (Z.of_nat p)))
    eqn:Hb.
  - apply HA, Hsel. split; [lia | reflexivity].
  - apply HB. intros H. apply Hsel in H. destruct H as [_ H]. discriminate.
Qed.

Lemma assign_valid_reads {T : Type} ranges (v : T) (a : Plain.MultiArray T) :
  wf a -> valid_ranges (Plain.d_dimensions a) ranges ->
  exists a',
    Plain.assign a ranges v = Some a'
    /\ wf a'
    /\ Plain.d_dimensions a' = Plain.d_dimensions a
    /\ forall idx,
        in_range (Plain.d_dimensions a) idx ->
        Plain.call a' idx
        = if in_box ranges idx then Some v else Plain.call a idx.
Proof.
  intros Hwf Hv.
  destruct (assign_valid ranges v a Hwf Hv) as (data' & E & Hl & HA & HB & _).
  exists (Plain.mkMultiArray data' (Plain.d_dimensions a)).
  assert (wf (Plain.mkMultiArray data' (Plain.d_dimensions a))) as Hwf'.
  { unfold wf in *. simpl. rewrite Hl. exact Hwf. }
  split; [exact E|]. split; [exact Hwf'|]. split; [reflexivity|].
  intros idx Hr.
  destruct (index_in_range _ idx Hwf' Hr) as [E' _].
  destruct (index_in_range a idx Hwf Hr) as [E0 B0].
  unfold Plain.call. rewrite E', E0. simpl. unfold load.
  destruct (Z.leb_spec 0 (offset (Plain.d_dimensions a) idx)); [|lia].
  destruct (in_box ranges idx) eqn:Hbox.
  - apply HA. exists idx. split; [exact Hbox|]. lia.
  - apply HB. intros (idx2 & Hbox2 & Ho).
    assert (idx2 = idx) as ->.
    { eapply offset_inj;
        [eapply in_box_in_range; eassumption | exact Hr | lia]. }
    congruence.
Qed.

Lemma valid_full_ranges dims :
  Forall is_size_t dims -> valid_ranges dims (full_ranges dims).
Proof.
  unfold valid_ranges, full_ranges.
  induction 1 as [|d ds Hd _ IH]; simpl; constructor; auto.
  unfold is_size_t in Hd. simpl. lia.
Qed.

Lemma in_box_full dims idx :
  in_range dims idx -> in_box (full_ranges dims) idx = true.
Proof.
  unfold full_ranges.
  induction 1 as [|i d idx ds Hi _ IH]; simpl; [reflexivity|].
  rewrite IH.
  destruct (Z.leb_spec 0 i); [|lia].
  destruct (Z.ltb_spec i d); [|lia]. reflexivity.
Qed.

(** X7.  A valid range assignment is idempotent: on an array that
    satisfies the class invariant, repeating [assign(ranges, v)] on its
    own result succeeds and changes nothing. *)
Theorem assign_idempotent {T : Type} (a a' : Plain.MultiArray T)
        (ranges : list (Z * Z)) (v : T) :
  wf a -> valid_ranges (Plain.d_dimensions a) ranges ->
  Plain.assign a ranges v = Some a' ->
  Plain.assign a' ranges v = Some a'.
Proof.
  intros Hwf Hv Ea.
  destruct (assign_valid_store ranges v a Hwf Hv) as (d1 & E1 & L1 & N1).
  rewrite E1 in Ea. injection Ea as <-.
  assert (wf (Plain.mkMultiArray d1 (Plain.d_dimensions a))) as Hwf1.
  { unfold wf in *. simpl. rewrite L1. exact Hwf. }
  destruct (assign_valid_store ranges v _ Hwf1 Hv) as (d2 & E2 & L2 & N2).
  cbn [Plain.d_data Plain.d_dimensions] in *.
  rewrite E2. do 2 f_equal.
  apply nth_error_ext. intros p.
  destruct (Nat.lt_ge_cases p (length d1)) as [Hp|Hp].
  - rewrite N2 by exact Hp.
    destruct (in_box ranges (coords (Plain.d_dimensions a) (Z.of_nat p)))
      eqn:Hb; [|reflexivity].
    rewrite N1, Hb by lia. reflexivity.
  - rewrite (proj2 (nth_error_None d1 p)) by lia.
    apply nth_error_None. lia.
Qed.

Lemma assign_idempotent_witness :
  Plain.assign
    (Plain.mkMultiArray [10; 9; 9; 13; 9; 9; 16; 17; 18] [3; 3]) box_3x3 9
  = Some (Plain.mkMultiArray [10; 9; 9; 13; 9; 9; 16; 17; 18] [3; 3]).
Proof.
  apply (assign_idempotent sample_3x3).
  - solve_wf.
  - repeat constructor; cbn; lia.
  - reflexivity.
Defined.

(** X8.  The two overloads of [assign] agree on the whole array: on an
    array that satisfies the class invariant, the range assignment with
    the table [{[0, dimensions[k])}] succeeds and leaves the object that
    [assign(v)] leaves. *)
Theorem assign_full_ranges {T : Type} (a : Plain.MultiArray T) (v : T) :
  wf a ->
  Plain.assign a (full_ranges (Plain.d_dimensions a)) v
  = Some (Plain.assign_all a v).
Proof.
  intros Hwf.
  pose proof Hwf as (HD & Hsz & Hlen & Hmax).
  pose proof (valid_full_ranges _ Hsz) as Hv.
  destruct (assign_valid_store _ v a Hwf Hv) as (d1 & E1 & L1 & N1).
  rewrite E1. unfold Plain.assign_all. do 2 f_equal.
  apply nth_error_ext. intros p.
  destruct (Nat.lt_ge_cases p (length (Plain.d_data a))) as [Hp|Hp].
  - rewrite N1 by exact Hp.
    destruct (coords_spec (Plain.d_dimensions a) (Z.of_nat p)) as [Hc _];
      [apply Forall_size_nonneg, Hsz | lia |].
    rewrite (in_box_full _ _ Hc), nth_error_map.
    destruct (nth_error (Plain.d_data a) p) eqn:En; [reflexivity|].
    apply nth_error_None in En. lia.
  - rewrite (proj2 (nth_error_None d1 p)) by lia.
    symmetry. apply nth_error_None. rewrite length_map. lia.
Qed.

Lemma assign_full_ranges_witness :
  Plain.assign sample_3x3 [(0, 3); (0, 3)] 7
  = Some (Plain.mkMultiArray [7; 7; 7; 7; 7; 7; 7; 7; 7] [3; 3]).
Proof.
  apply (assign_full_ranges sample_3x3 7). solve_wf.
Defined.

(** X9.  Range assignments chain, the later one winning where the boxes
    overlap: on an array that satisfies the class invariant and for two
    valid tables, [assign(r1, v1)] followed by [assign(r2, v2)] succeeds,
    and a valid coordinate tuple then reads [v2] inside the second box,
    else [v1] inside the first, else its value before the two calls. *)
Theorem assign_twice {T : Type} (a : Plain.MultiArray T)
        (r1 r2 : list (Z * Z)) (v1 v2 : T) :
  wf a ->
  valid_ranges (Plain.d_dimensions a) r1 ->
  valid_ranges (Plain.d_dimensions a) r2 ->
  exists a1 a2,
    Plain.assign a r1 v1 = Some a1
    /\ Plain.assign a1 r2 v2 = Some a2
    /\ forall idx,
        in_range (Plain.d_dimensions a) idx ->
        Plain.call a2 idx
        = if in_box r2 idx then Some v2
          else if in_box r1 idx then Some v1
               else Plain.call a idx.
Proof.
  intros Hwf Hv1 Hv2.
  destruct (assign_valid_reads r1 v1 a Hwf Hv1) as (a1 & E1 & Hwf1 & D1 & R1).
  rewrite <- D1 in Hv2.
  destruct (assign_valid_reads r2 v2 a1 Hwf1 Hv2) as (a2 & E2 & _ & _ & R2).
  exists a1, a2. split; [exact E1|]. split; [exact E2|].
  intros idx Hr. rewrite R2 by (rewrite D1; exact Hr).
  destruct (in_box r2 idx); [reflexivity|]. apply R1, Hr.
Qed.

Lemma assign_twice_witness :
  exists a1 a2,
    Plain.assign sample_3x3 box_3x3 9 = Some a1
    /\ Plain.assign a1 [(1, 3); (2, 3)] 4 = Some a2
    /\ Plain.call a2 [1; 2] = Some 4
    /\ Plain.call a2 [0; 2] = Some 9
    /\ Plain.call a2 [2; 0] = Some 16.
Proof.
  destruct (assign_twice sample_3x3 box_3x3 [(1, 3); (2, 3)] 9 4)
    as (a1 & a2 & E1 & E2 & H).
  - solve_wf.
  - repeat constructor; cbn; lia.
  - repeat constructor; cbn; lia.
  - exists a1, a2. split; [exact E1|]. split; [exact E2|].
    repeat split; (rewrite H; [reflexivity | solve_range]).
Defined.

(** ** Element writes compose *)

Lemma call_assign_store {T : Type} (a : Plain.MultiArray T) idx (v : T) :
  wf a -> in_range (Plain.d_dimensions a) idx ->
  exists data',
    Plain.call_assign a idx v
    = Some (Plain.mkMultiArray data' (Plain.d_dimensions a))
    /\ length data' = length (Plain.d_data a)
    /\ (Z.to_nat (offset (Plain.d_dimensions a) idx)
        < length (Plain.d_data a))%nat
    /\ forall p,
        nth_error data' p
        = if (p =? Z.to_nat (offset (Plain.d_dimensions a) idx))%nat
          then Some v else nth_error (Plain.d_data a) p.
Proof.
  intros Hwf Hr.
  destruct (index_in_range a idx Hwf Hr) as [E B].
  destruct (store_spec (Plain.d_data a) _ v B) as (data' & Es & Hl & Hn).
  exists data'. unfold Plain.call_assign. rewrite E, Es.
  repeat split; auto. lia.
Qed.

(** X10.  Writes through [operator()] at valid coordinates of an array
    that satisfies the class invariant always succeed and compose as
    writes to distinct cells: two writes at different coordinate tuples
    give the same object in either order, and of two writes at the same
    tuple only the second is kept. *)
Theorem call_assign_compose {T : Type} (a : Plain.MultiArray T)
        (idx1 idx2 : list Z) (v1 v2 : T) :
  wf a ->
  in_range (Plain.d_dimensions a) idx1 ->
  in_range (Plain.d_dimensions a) idx2 ->
  (exists b,
      (s <- Plain.call_assign a idx1 v1 ;; Plain.call_assign s idx2 v2)
      = Some b
      /\ (idx1 <> idx2 ->
          (s <- Plain.call_assign a idx2 v2 ;; Plain.call_assign s idx1 v1)
          = Some b))
  /\ (s <- Plain.call_assign a idx1 v1 ;; Plain.call_assign s idx1 v2)
     = Plain.call_assign a idx1 v2.
Proof.
  intros Hwf H1 H2.
  assert (forall d : list T, length d = length (Plain.d_data a) ->
                    wf (Plain.mkMultiArray d (Plain.d_dimensions a))) as Hwf'.
  { intros d Hd. unfold wf in *. simpl. rewrite Hd. exact Hwf. }
  destruct (call_assign_store a idx1 v1 Hwf H1) as (d1 & E1 & L1 & B1 & N1).
  destruct (call_assign_store a idx2 v2 Hwf H2) as (d2 & E2 & L2 & B2 & N2).
  destruct (call_assign_store _ idx2 v2 (Hwf' d1 L1) H2)
    as (d12 & E12 & L12 & _ & N12).
  destruct (call_assign_store _ idx1 v1 (Hwf' d2 L2) H1)
    as (d21 & E21 & L21 & _ & N21).
  destruct (call_assign_store _ idx1 v2 (Hwf' d1 L1) H1)
    as (d11 & E11 & L11 & _ & N11).
  destruct (call_assign_store a idx1 v2 Hwf H1) as (d1' & E1' & L1' & _ & N1').
  cbn [Plain.d_data Plain.d_dimensions] in *.
  rewrite E1. split.
  - eexists. split; [exact E12|].
    intros Hne. rewrite E2, E21. do 2 f_equal.
    assert (Z.to_nat (offset (Plain.d_dimensions a) idx1)
            <> Z.to_nat (offset (Plain.d_dimensions a) idx2)) as Ho.
    { intros Ho. apply Hne.
      pose proof (offset_bounds _ _ H1). pose proof (offset_bounds _ _ H2).
      eapply offset_inj; [exact H1 | exact H2 | lia]. }
    apply nth_error_ext. intros p. rewrite N21, N12, N1, N2.
    destruct (Nat.eqb_spec p (Z.to_nat (offset (Plain.d_dimensions a) idx1))),
             (Nat.eqb_spec p (Z.to_nat (offset (Plain.d_dimensions a) idx2)));
      try reflexivity.
    congruence.
  - rewrite E11, E1'. do 2 f_equal.
    apply nth_error_ext. intros p. rewrite N11, N1', N1.
    destruct (Nat.eqb_spec p (Z.to_nat (offset (Plain.d_dimensions a) idx1)));
      reflexivity.
Qed.

Lemma call_assign_compose_witness :
  (s <- Plain.call_assign sample_3x3 [0; 1] 7 ;; Plain.call_assign s [2; 2] 8)
  = (s <- Plain.call_assign sample_3x3 [2; 2] 8 ;;
     Plain.call_assign s [0; 1] 7).
Proof.
  destruct (proj1 (call_assign_compose sample_3x3 [0; 1] [2; 2] 7 8
                     ltac:(solve_wf) ltac:(solve_range) ltac:(solve_range)))
    as (b & E & E').
  rewrite E, E'; [reflexivity | discriminate].
Defined.

(** ** The variants on every range table *)


(** X12.  The iterator variant and multiarr.h agree on every range
    table, valid or not, when the store is shorter than 2^64: either both
    assignments complete with the same store and axes, or both leave
    defined behaviour. *)
Theorem iter_agrees {T : Type} (i : Iter.MultiArray T)
        (ranges : list (Z * Z)) (v : T) :
  Z.of_nat (length (Iter.d_data i)) < SIZE_MOD ->
  option_map of_iter (Iter.assign i ranges v)
  = Plain.assign (of_iter i) ranges v.
Proof.
  intros Hlen.
  pose proof (Iter_assign_sim ranges v i Hlen) as H.
  destruct (Iter.assign i ranges v), (Plain.assign (of_iter i) ranges v);
    cbn in H |- *; try contradiction; [|reflexivity].
  destruct H as [H _]. congruence.
Qed.

Lemma iter_agrees_witness :
  option_map of_iter (Iter.assign iter_3x3 [(0, 1); (1, 5)] 9)
  = Some (Plain.mkMultiArray [10; 9; 9; 9; 9; 15; 16; 17; 18] [3; 3])
  /\ option_map of_iter (Iter.assign iter_3x3 [(0, 3); (2, 1)] 9) = None.
Proof.
  split.
  - rewrite (iter_agrees iter_3x3 [(0, 1); (1, 5)] 9).
    + reflexivity.
    + unfold SIZE_MOD. cbn. lia.
  - rewrite (iter_agrees iter_3x3 [(0, 3); (2, 1)] 9).
    + reflexivity.
    + unfold SIZE_MOD. cbn. lia.
Defined.

(** ** Raw access *)

(** X13.  The raw store and the coordinates are two views of the same
    elements.  On an array that satisfies the class invariant, position
    [p] of [data()] is the element that [operator()] reads at the
    coordinates of [p] (successive quotients and remainders by the
    strides), [index] of those coordinates is [p], and the coordinates of
    the [index] of a valid tuple are that tuple. *)
Theorem raw_access_roundtrip {T : Type} (a : Plain.MultiArray T) :
  wf a ->
  (forall p, (p < length (data a))%nat ->
     in_range (Plain.d_dimensions a)
              (coords (Plain.d_dimensions a) (Z.of_nat p))
     /\ Plain.index a (coords (Plain.d_dimensions a) (Z.of_nat p))
        = Some (Z.of_nat p)
     /\ Plain.call a (coords (Plain.d_dimensions a) (Z.of_nat p))
        = nth_error (data a) p)
  /\ (forall idx o,
        in_range (Plain.d_dimensions a) idx ->
        Plain.index a idx = Some o ->
        coords (Plain.d_dimensions a) o = idx).
Proof.
  intros Hwf. pose proof Hwf as (HD & Hsz & Hlen & Hmax).
  unfold data. split.
  - intros p Hp.
    destruct (coords_spec (Plain.d_dimensions a) (Z.of_nat p)) as [Hc Ec];
      [apply Forall_size_nonneg, Hsz | lia |].
    destruct (index_in_range a _ Hwf Hc) as [E _].
    rewrite Ec in E. split; [exact Hc|]. split; [exact E|].
    unfold Plain.call. rewrite E. unfold load.
    destruct (Z.leb_spec 0 (Z.of_nat p)); [|lia].
    rewrite Nat2Z.id. reflexivity.
  - intros idx o Hr E.
    destruct (index_in_range a idx Hwf Hr) as [E' B].
    rewrite E' in E. injection E as <-.
    destruct (coords_spec (Plain.d_dimensions a)
                          (offset (Plain.d_dimensions a) idx)) as [Hc Ec];
      [apply Forall_size_nonneg, Hsz | lia |].
    eapply offset_inj; [exact Hc | exact Hr | exact Ec].
Qed.

Lemma raw_access_roundtrip_witness :
  Plain.call sample_3x3 (coords [3; 3] 7) = nth_error (data sample_3x3) 7
  /\ coords [3; 3] 5 = [1; 2].
Proof.
  destruct (raw_access_roundtrip sample_3x3 ltac:(solve_wf)) as [H1 H2].
  split.
  - apply (H1 7%nat). cbn. lia.
  - apply (H2 [1; 2] 5); [solve_range | reflexivity].
Defined.

(** ** A reversed range on the last axis *)

Lemma to_size_t_negative x :
  - SIZE_MOD <= x < 0 -> to_size_t x = x + SIZE_MOD.
Proof.
  intros H. unfold to_size_t.
  rewrite <- (Z_mod_plus_full x 1 SIZE_MOD), Z.mul_1_l.
  apply Z.mod_small. lia.
Qed.

Section ReversedLast.
Context {T : Type}.
Variable val : T.
Variable dims : list Z.
Variable ranges : list (Z * Z).

Hypothesis dims_nonempty : (1 <= length dims)%nat.
Hypothesis dims_size : Forall is_size_t dims.
Hypothesis total_size : prod_list dims < SIZE_MOD.
Hypothesis ranges_length : length ranges = length dims.
Hypothesis outer_valid :
  valid_ranges (firstn (length dims - 1) dims)
               (firstn (length dims - 1) ranges).
Hypothesis outer_nonempty : forall k,
  (k < length dims - 1)%nat ->
  fst (nth k ranges (0, 0)) < snd (nth k ranges (0, 0)).
Hypothesis last_reversed :
  0 <= snd (nth (length dims - 1) ranges (0, 0))
    < fst (nth (length dims - 1) ranges (0, 0))
  /\ fst (nth (length dims - 1) ranges (0, 0))
     <= nth (length dims - 1) dims 0.

Lemma Assign_last_reversed indices data :
  in_box (firstn (length dims - 1) ranges) indices = true ->
  Plain.Assign_last ranges val indices (Plain.mkMultiArray data dims) = None.
Proof.
  intros Hbox.
  pose proof (in_box_length _ _ Hbox) as Hli.
  rewrite length_firstn, Nat.min_l in Hli by lia.
  pose proof (in_box_in_range _ _ outer_valid _ Hbox) as Hr.
  destruct last_reversed as [Hrev Hle].
  unfold Plain.Assign_last. cbn [Plain.d_dimensions Plain.d_data].
  set (b := fst (nth (length dims - 1) ranges (0, 0))) in *.
  set (e := snd (nth (length dims - 1) ranges (0, 0))) in *.
  rewrite indexMap_pack_full by (rewrite ?length_app; simpl; lia).
  pose proof (offset_snoc_le _ indices b (nth (length dims - 1) dims 0) Hr
                ltac:(lia)) as Hb.
  rewrite <- (split_last dims 0 dims_nonempty) in Hb.
  pose proof (offset_snoc_le _ indices 0 (nth (length dims - 1) dims 0) Hr
                ltac:(lia)) as H0.
  rewrite <- (split_last dims 0 dims_nonempty) in H0.
  rewrite (offset_snoc dims indices b) in * by lia.
  set (B0 := offset dims (indices ++ [0])) in *.
  rewrite (to_size_t_small (B0 + b)) by (unfold is_size_t; lia).
  rewrite (to_size_t_negative (e - b)) by lia.
  replace (B0 + b + (e - b + SIZE_MOD)) with (B0 + e + 1 * SIZE_MOD) by lia.
  unfold to_size_t at 1. rewrite Z_mod_plus_full.
  rewrite Z.mod_small by lia.
  unfold fill.
  destruct (Z.eqb_spec (B0 + b) (B0 + e)); [lia|].
  destruct (Z.ltb_spec (B0 + b) (B0 + e)); [lia|].
  rewrite andb_false_r. reflexivity.
Qed.

Lemma Assign_levels_reversed : forall n L indices data,
  (L + n + 1 = length dims)%nat ->
  in_box (firstn L ranges) indices = true ->
  Assign_levels (Plain.Assign_last ranges val) ranges n L indices
                (Plain.mkMultiArray data dims) = None.
Proof.
  induction n as [|n IH]; intros L indices data HL Hbox.
  - replace L with (length dims - 1)%nat in * by lia.
    apply Assign_last_reversed, Hbox.
  - cbn [Assign_levels]. rewrite Nat.add_1_r.
    pose proof (Forall2_nth _ _ _ outer_valid L (0, 0) 0) as Hv.
    rewrite !nth_firstn, length_firstn in Hv.
    destruct (Nat.ltb_spec L (length dims - 1)); [|lia].
    specialize (Hv ltac:(lia)).
    pose proof (proj1 (Forall_nth _ _) dims_size L 0 ltac:(lia)) as Hd.
    pose proof (outer_nonempty L ltac:(lia)) as Hne.
    pose proof (in_box_length _ _ Hbox) as Hli.
    rewrite length_firstn, Nat.min_l in Hli by lia.
    set (r := nth L ranges (0, 0)) in *. unfold is_size_t in Hd.
    rewrite loop_values_valid by lia.
    destruct (Z.to_nat (snd r - fst r)) as [|m] eqn:Em; [lia|].
    cbn [seq map for_each]. rewrite Z.add_0_r.
    rewrite IH; [reflexivity | lia |].
    rewrite (firstn_succ_snoc ranges L (0, 0)) by lia.
    rewrite in_box_app by (rewrite length_firstn; lia).
    rewrite Hbox, in_box_single. fold r.
    destruct (Z.leb_spec (fst r) (fst r)); [|lia].
    destruct (Z.ltb_spec (fst r) (snd r)); [|lia]. reflexivity.
Qed.

End ReversedLast.

(** X14.  A reversed range on the last axis is not an empty range.  On an
    array that satisfies the class invariant, with a table whose outer
    axes are valid and non-empty and whose last axis has
    [end < begin <= dimensions[D-1]], the first fill is entered with its
    end position before its start position: the call leaves defined
    behaviour instead of doing nothing. *)
Theorem assign_reversed_last {T : Type} (a : Plain.MultiArray T)
        (ranges : list (Z * Z)) (v : T) :
  wf a ->
  length ranges = length (Plain.d_dimensions a) ->
  valid_ranges
    (firstn (length (Plain.d_dimensions a) - 1) (Plain.d_dimensions a))
    (firstn (length (Plain.d_dimensions a) - 1) ranges) ->
  (forall k, (k < length (Plain.d_dimensions a) - 1)%nat ->
             fst (nth k ranges (0, 0)) < snd (nth k ranges (0, 0))) ->
  0 <= snd (nth (length (Plain.d_dimensions a) - 1) ranges (0, 0))
    < fst (nth (length (Plain.d_dimensions a) - 1) ranges (0, 0)) ->
  fst (nth (length (Plain.d_dimensions a) - 1) ranges (0, 0))
  <= nth (length (Plain.d_dimensions a) - 1) (Plain.d_dimensions a) 0 ->
  Plain.assign a ranges v = None.
Proof.
  destruct a as [data0 dims]. unfold wf, well_formed.
  cbn [Plain.d_data Plain.d_dimensions].
  intros (HD & Hsz & Hlen & Hmax) Hl Hout Hne Hrev Hle.
  unfold Plain.assign. cbn [Plain.d_dimensions].
  apply (Assign_levels_reversed v dims ranges HD Hsz ltac:(lia) Hl Hout Hne
           (conj Hrev Hle)); [lia | reflexivity].
Qed.

Lemma assign_reversed_last_witness :
  Plain.assign sample_3x3 [(0, 2); (2, 1)] 9 = None.
Proof.
  apply (assign_reversed_last sample_3x3 [(0, 2); (2, 1)] 9).
  - solve_wf.
  - reflexivity.
  - repeat constructor; cbn; lia.
  - intros [|k] Hk; cbn in Hk |- *; lia.
  - cbn. lia.
  - cbn. lia.
Defined.
